(** * clin-assist-backend: the streaming and one-shot transcription server

    A shallow embedding of [src/server.js] and the properties of its
    session store, chunk buffer, transcript and finalisation step.

    The server is a Node.js event loop.  A message handler runs without
    interruption up to its [await], where it is parked until the provider's
    promise settles; other handlers run in between.  The embedding keeps that
    structure: [on_message] is the part of the handler before the [await],
    [after_transcription] and [after_response] are the parts after it, and
    [step] is one turn of the event loop. *)

From Stdlib Require Import Ascii.
From stdpp Require Import base option list strings gmap fin_maps.

(** ** Values *)

(** A value produced by [JSON.parse].  A number is carried as the text that
    JavaScript's [ToString] gives for it: the server never computes with
    numbers, it can only splice them into a string. *)
#[warnings="-register-all"]
Inductive json : Type :=
| JNull
| JBool (b : bool)
| JNum (repr : string)
| JStr (s : string)
| JArr (items : list json)
| JObj (props : list (string * json)).

(** The result of a property read: [None] is [undefined]. *)
Definition jsval : Type := option json.

Inductive nullish : Type := Undefined | Null.

(** What a handler can throw: the [SyntaxError] of [JSON.parse], the
    [TypeError] of a property read on [undefined] or [null], the [TypeError]
    of an object that cannot be converted to a primitive value, and the
    rejection of a provider.  The reply to the client carries
    [err.message]; its wording belongs to the engine, so the exception itself
    stands for it. *)
Inductive exn : Type :=
| SyntaxError (text : string)
| TypeError (base : nullish) (prop : string)
| ToPrimitiveError
| ProviderError (message : string).

Inductive result (A : Type) : Type :=
| Return (a : A)
| Throw (e : exn).
Arguments Return {A} a.
Arguments Throw {A} e.

(** [o.key] for a parsed value [o]: reading a property of [null] throws, an
    object gives its own property, and every other value gives [undefined]
    (no prototype of a JSON value has a [type] or [data] property). *)
Fixpoint assoc (key : string) (props : list (string * json)) : jsval :=
  match props with
  | [] => None
  | (k, v) :: rest => if String.eqb k key then Some v else assoc key rest
  end.

Definition prop (o : json) (key : string) : result jsval :=
  match o with
  | JNull => Throw (TypeError Null key)
  | JObj props => Return (assoc key props)
  | _ => Return None
  end.

(** [v === s] for a string literal [s]. *)
Definition strict_eq (v : jsval) (s : string) : bool :=
  match v with
  | Some (JStr t) => String.eqb t s
  | _ => false
  end.

(** The results of a list of conversions run from left to right: the first
    one that throws ends the run. *)
Fixpoint sequence (rs : list (result string)) : result (list string) :=
  match rs with
  | [] => Return []
  | Return x :: rest =>
      match sequence rest with
      | Return xs => Return (x :: xs)
      | Throw e => Throw e
      end
  | Throw e :: _ => Throw e
  end.

(** [ToString] on a parsed value, as [Array.prototype.join] applies it.

    An array is converted by [Array.prototype.toString], its elements
    joined by commas.  An object is converted by the first callable of its
    [toString] and [valueOf] that returns a primitive: a parsed object
    without a [toString] key of its own inherits [Object.prototype.toString];
    with one, whose value is never callable, it is left with the inherited
    [valueOf], which returns the object itself, and the conversion throws. *)
Fixpoint ToString (v : json) : result string :=
  match v with
  | JNull => Return "null"
  | JBool true => Return "true"
  | JBool false => Return "false"
  | JNum repr => Return repr
  | JStr s => Return s
  | JArr items =>
      match
        sequence
          (map (fun x => match x with JNull => Return "" | _ => ToString x end)
             items)
      with
      | Return strings => Return (String.concat "," strings)
      | Throw e => Throw e
      end
  | JObj props =>
      match assoc "toString" props with
      | Some _ => Throw ToPrimitiveError
      | None => Return "[object Object]"
      end
  end.

(** [xs.join('')]: [undefined] and [null] elements count as empty, the
    others are converted in turn. *)
Definition join_element (x : jsval) : result string :=
  match x with
  | None | Some JNull => Return ""
  | Some v => ToString v
  end.

Definition join (xs : list jsval) : result string :=
  match sequence (map join_element xs) with
  | Return strings => Return (String.concat "" strings)
  | Throw e => Throw e
  end.

(** ** [String.prototype.trim]

    Strings hold the UTF-8 encoding of the text, so a white space or line
    terminator character is one, two or three bytes long. *)
Definition byte_of (a : ascii) : nat := nat_of_ascii a.

Definition white_space1 (a : nat) : bool :=
  ((a =? 9) || (a =? 10) || (a =? 11) || (a =? 12) || (a =? 13) || (a =? 32))%nat.

(** U+00A0 *)
Definition white_space2 (a b : nat) : bool :=
  ((a =? 194) && (b =? 160))%nat.

(** U+1680, U+2000..U+200A, U+2028, U+2029, U+202F, U+205F, U+3000, U+FEFF *)
Definition white_space3 (a b c : nat) : bool :=
  (((a =? 225) && (b =? 154) && (c =? 128))
   || ((a =? 226) && (b =? 128)
       && (((128 <=? c) && (c <=? 138)) || (c =? 168) || (c =? 169) || (c =? 175)))
   || ((a =? 226) && (b =? 129) && (c =? 159))
   || ((a =? 227) && (b =? 128) && (c =? 128))
   || ((a =? 239) && (b =? 187) && (c =? 191)))%nat.

Fixpoint trimStart (s : string) : string :=
  match s with
  | EmptyString => EmptyString
  | String a r1 =>
      if white_space1 (byte_of a) then trimStart r1
      else
        match r1 with
        | EmptyString => s
        | String b r2 =>
            if white_space2 (byte_of a) (byte_of b) then trimStart r2
            else
              match r2 with
              | EmptyString => s
              | String c r3 =>
                  if white_space3 (byte_of a) (byte_of b) (byte_of c)
                  then trimStart r3 else s
              end
        end
  end.

(** The same scan from the end, on the reversed string. *)
Fixpoint trimStart_rev (s : string) : string :=
  match s with
  | EmptyString => EmptyString
  | String a r1 =>
      if white_space1 (byte_of a) then trimStart_rev r1
      else
        match r1 with
        | EmptyString => s
        | String b r2 =>
            if white_space2 (byte_of b) (byte_of a) then trimStart_rev r2
            else
              match r2 with
              | EmptyString => s
              | String c r3 =>
                  if white_space3 (byte_of c) (byte_of b) (byte_of a)
                  then trimStart_rev r3 else s
              end
        end
  end.

Definition trimEnd (s : string) : string :=
  String.rev (trimStart_rev (String.rev s)).

Definition trim (s : string) : string := trimEnd (trimStart s).

(** ** The platform and the providers

    [JSON.parse] ([None]: it throws a [SyntaxError]) and
    [Buffer.from(s, 'base64')] are Node.js built-ins; the development is
    parametric in them. *)
Class Platform : Type := {
  JSON_parse : string -> option json;
  Buffer_from_base64 : string -> list Byte.byte
}.

(** [new File([bytes], name, { type })] with the model asked for. *)
Record TranscriptionRequest : Type := {
  file : list Byte.byte;
  file_name : string;
  file_type : string;
  transcription_model : string
}.

Record Transcription : Type := { text : string }.

(** The argument of [openai.responses.create]; the temperature is kept as
    written. *)
Record ResponseRequest : Type := {
  model : string;
  input : string;
  temperature : string
}.

(** The part of a response the server reads:
    [completion.output[0].content[0].text].  An output item may have no
    [content], a content part may have no [text]. *)
Record OutputItem : Type := { content : option (list (option string)) }.
Record Response : Type := { output : list OutputItem }.

(** How a provider's promise settles. *)
Inductive settled (A : Type) : Type :=
| Fulfilled (a : A)
| Rejected (message : string).
Arguments Fulfilled {A} a.
Arguments Rejected {A} message.

(** ** Sessions and sockets *)

(** [{ chunks: [], transcript: '' }] *)
Record Session : Type := {
  chunks : list jsval;
  transcript : string
}.

(** What the server sends on the socket, before [JSON.stringify]. *)
Inductive ServerMessage : Type :=
| MsgSession (sessionId : string)
| MsgPartialTranscript (text : string)
| MsgFinal (transcript : string) (summary : json)
| MsgError (err : exn).

(** One connection's socket: the arguments of its [ws.send] calls, oldest
    first, and whether [ws.close()] was called or the client went away.  A
    [ws.send] on a closed socket is recorded like any other: whether the
    message still reaches the client is the socket library's business. *)
Record Socket : Type := {
  sent : list ServerMessage;
  closed : bool
}.

(** What a handler works on: the module-level [sessions] map and the [ws]
    of its connection. *)
Record Heap : Type := {
  sessions : gmap string Session;
  ws : Socket
}.

(** ** Handlers: state and exceptions *)

Definition handler (A : Type) : Type := Heap -> result A * Heap.

#[export] Instance handler_ret : MRet handler :=
  fun A a h => (Return a, h).

#[export] Instance handler_bind : MBind handler :=
  fun A B f m h =>
    match m h with
    | (Return a, h') => f a h'
    | (Throw e, h') => (Throw e, h')
    end.

#[export] Instance result_ret : MRet result := @Return.

#[export] Instance result_bind : MBind result :=
  fun A B f m =>
    match m with
    | Return a => f a
    | Throw e => Throw e
    end.

Definition lift {A : Type} (r : result A) : handler A :=
  fun h => (r, h).

(** [sessions.get(id).field]: the read throws when the session is gone. *)
Definition sessions_get (sessionId field : string) : handler Session :=
  fun h =>
    match sessions h !! sessionId with
    | Some s => (Return s, h)
    | None => (Throw (TypeError Undefined field), h)
    end.

(** A write through the reference [sessions.get(id)] returned. *)
Definition sessions_put (sessionId : string) (s : Session) : handler unit :=
  fun h => (Return tt, {| sessions := <[sessionId := s]> (sessions h); ws := ws h |}).

Definition sessions_delete (sessionId : string) : handler unit :=
  fun h => (Return tt, {| sessions := delete sessionId (sessions h); ws := ws h |}).

Definition ws_send (m : ServerMessage) : handler unit :=
  fun h => (Return tt,
            {| sessions := sessions h;
               ws := {| sent := sent (ws h) ++ [m]; closed := closed (ws h) |} |}).

Definition ws_close : handler unit :=
  fun h => (Return tt,
            {| sessions := sessions h;
               ws := {| sent := sent (ws h); closed := true |} |}).

(** [try { body } catch (err) { ws.send({ type: 'error', message }) }]
    (lines 34 and 91-94; [console.error] is not modelled). *)
Definition try_catch {A : Type} (body : handler A) (h : Heap) : option A * Heap :=
  match body h with
  | (Return a, h') => (Some a, h')
  | (Throw e, h') => (None, (ws_send (MsgError e) h').2)
  end.

(** ** The prompt *)

Definition nl : string := String "010"%char "".
Definition dquote : string := String "034"%char "".
Definition quoted (s : string) : string := dquote +:+ s +:+ dquote.

Definition summary_shape : string :=
  "{" +:+ quoted "subjective" +:+ ":[]," +:+ quoted "objective" +:+ ":[],"
  +:+ quoted "assessment" +:+ ":[]," +:+ quoted "plan" +:+ ":[],"
  +:+ quoted "redFlags" +:+ ":[]}".

(** The template literal of both endpoints; they differ in the indentation
    of its last line only. *)
Definition prompt (indent fullText : string) : string :=
  nl +:+ "You are a clinical note helper. Convert the given doctor-patient transcript into concise SOAP sections and redFlags."
  +:+ nl +:+ "Return ONLY JSON:"
  +:+ nl +:+ summary_shape
  +:+ nl
  +:+ nl +:+ "Transcript:"
  +:+ nl +:+ fullText
  +:+ nl +:+ indent.

Section Server.
Context `{Platform}.

Definition JSON_parse_or_throw (text : string) : result json :=
  match JSON_parse text with
  | Some v => Return v
  | None => Throw (SyntaxError text)
  end.

(** [await promise]: a rejection is thrown at the [await]. *)
Definition settle {A : Type} (r : settled A) : result A :=
  match r with
  | Fulfilled a => Return a
  | Rejected message => Throw (ProviderError message)
  end.

Definition await {A : Type} (r : settled A) : handler A := lift (settle r).

(** ** Parse or fall back (lines 79-84 and 127-132)

    [completion.output[0].content[0].text] throws when there is no output
    item, no [content] or no content part. *)
Definition output_text (completion : Response) : result (option string) :=
  match output completion with
  | [] => Throw (TypeError Undefined "content")
  | item :: _ =>
      match content item with
      | None => Throw (TypeError Undefined "0")
      | Some [] => Throw (TypeError Undefined "text")
      | Some (part :: _) => Return part
      end
  end.

(** [JSON.parse(x)] converts [x] to a string first. *)
Definition text_argument (x : option string) : string :=
  match x with
  | Some t => t
  | None => "undefined"
  end.

(** [{ error: label, raw: x }], as [JSON.stringify] writes it: an
    [undefined] property is left out. *)
Definition fallback (label : string) (x : option string) : json :=
  match x with
  | Some t => JObj [("error", JStr label); ("raw", JStr t)]
  | None => JObj [("error", JStr label)]
  end.

(** [try { summary = JSON.parse(e) } catch { summary = { error, raw: e } }]
    where [e] is the [text] expression: the [catch] block evaluates it
    again, so what it threw in the [try] block it throws again there. *)
Definition parse_or_fallback (label : string) (completion : Response) : result json :=
  let attempt :=
    match output_text completion with
    | Return x => JSON_parse_or_throw (text_argument x)
    | Throw e => Throw e
    end in
  match attempt with
  | Return summary => Return summary
  | Throw _ =>
      match output_text completion with
      | Return x => Return (fallback label x)
      | Throw e => Throw e
      end
  end.

(** ** The message handler of [/stream] (lines 33-95) *)

(** A handler parked at its [await], with the locals it still needs. *)
Inductive awaiting : Type :=
| AwaitTranscription (request : TranscriptionRequest)
| AwaitResponse (request : ResponseRequest) (fullText : string).

(** [payload.type === s] *)
Definition type_is (payload : json) (s : string) : handler bool :=
  type ← lift (prop payload "type");
  mret (strict_eq type s).

(** Lines 35-50 and 60-77: the handler from its start to its [await], or to
    its end when it has none.  The source tests the type three times in a
    row; at most one test holds, so after the [chunkEnd] branch the test for
    [end] is not taken. *)
Definition on_message (sessionId msg : string) : handler (option awaiting) :=
  payload ← lift (JSON_parse_or_throw msg);
  is_audioChunk ← type_is payload "audioChunk";
  _ ← (if is_audioChunk : bool then
         s ← sessions_get sessionId "chunks";
         data ← lift (prop payload "data");
         sessions_put sessionId
           {| chunks := chunks s ++ [data]; transcript := transcript s |}
       else mret tt);
  is_chunkEnd ← type_is payload "chunkEnd";
  if is_chunkEnd : bool then
    s ← sessions_get sessionId "chunks";
    combinedBase64 ← lift (join (chunks s));
    _ ← sessions_put sessionId {| chunks := []; transcript := transcript s |};
    let audioBuffer := Buffer_from_base64 combinedBase64 in
    mret (Some (AwaitTranscription
                  {| file := audioBuffer; file_name := "chunk.wav";
                     file_type := "audio/wav"; transcription_model := "whisper-1" |}))
  else
    is_end ← type_is payload "end";
    if is_end : bool then
      s ← sessions_get sessionId "transcript";
      let fullText := trim (transcript s) in
      mret (Some (AwaitResponse
                    {| model := "gpt-4o-mini"; input := prompt "        " fullText;
                       temperature := "0.2" |}
                    fullText))
    else mret None.

(** Lines 55-57: after the transcription settles.  The test of line 60 is
    false here, the type being [chunkEnd]. *)
Definition after_transcription (sessionId : string)
    (r : settled Transcription) : handler unit :=
  transcription ← await r;
  s ← sessions_get sessionId "transcript";
  _ ← sessions_put sessionId
        {| chunks := chunks s;
           transcript := transcript s +:+ " " +:+ text transcription |};
  ws_send (MsgPartialTranscript (text transcription)).

(** Lines 79-88: after the completion settles. *)
Definition after_response (sessionId fullText : string)
    (r : settled Response) : handler unit :=
  completion ← await r;
  summary ← lift (parse_or_fallback "Invalid JSON from model" completion);
  _ ← ws_send (MsgFinal fullText summary);
  _ ← ws_close;
  sessions_delete sessionId.

(** ** The event loop

    Each connection keeps what its closure captured: the [sessionId] that
    [uuid()] returned and its [ws]. *)
Record Connection : Type := {
  conn_sessionId : string;
  conn_ws : Socket
}.

Record Task : Type := {
  task_conn : nat;
  task_awaiting : awaiting
}.

Record Server : Type := {
  store : gmap string Session;
  connections : list Connection;
  pending : list Task
}.

Definition initial : Server :=
  {| store := ∅; connections := []; pending := [] |}.

(** What can happen: a client connects ([uuid()] returning [uuid]), a
    message arrives on connection [c], the promise of parked handler [k]
    settles, or a client goes away.  The server registers no listener for
    [close] and no timer. *)
Inductive event : Type :=
| Connect (uuid : string)
| Message (c : nat) (msg : string)
| Transcribed (k : nat) (r : settled Transcription)
| Responded (k : nat) (r : settled Response)
| Hangup (c : nat).

(** Lines 27-31. *)
Definition on_connect (uuid : string) (s : Server) : Server :=
  {| store := <[uuid := {| chunks := []; transcript := "" |}]> (store s);
     connections :=
       connections s
       ++ [{| conn_sessionId := uuid;
              conn_ws := {| sent := [MsgSession uuid]; closed := false |} |}];
     pending := pending s |}.

Definition heap_of (s : Server) (conn : Connection) : Heap :=
  {| sessions := store s; ws := conn_ws conn |}.

(** Writes a handler's heap back and replaces the parked handlers. *)
Definition commit (s : Server) (c : nat) (conn : Connection) (h : Heap)
    (tasks : list Task) : Server :=
  {| store := sessions h;
     connections :=
       <[c := {| conn_sessionId := conn_sessionId conn; conn_ws := ws h |}]>
         (connections s);
     pending := tasks |}.

Definition parked (c : nat) (r : option (option awaiting)) : list Task :=
  match r with
  | Some (Some a) => [{| task_conn := c; task_awaiting := a |}]
  | _ => []
  end.

(** One turn of the event loop; [None] when the event cannot happen (no
    such connection, no such parked handler, or a result of the other
    provider). *)
Definition step (s : Server) (ev : event) : option Server :=
  match ev with
  | Connect uuid => Some (on_connect uuid s)
  | Message c msg =>
      conn ← connections s !! c;
      let '(r, h) :=
        try_catch (on_message (conn_sessionId conn) msg) (heap_of s conn) in
      Some (commit s c conn h (pending s ++ parked c r))
  | Transcribed k r =>
      task ← pending s !! k;
      conn ← connections s !! task_conn task;
      match task_awaiting task with
      | AwaitTranscription _ =>
          let '(_, h) :=
            try_catch (after_transcription (conn_sessionId conn) r)
              (heap_of s conn) in
          Some (commit s (task_conn task) conn h (delete k (pending s)))
      | AwaitResponse _ _ => None
      end
  | Responded k r =>
      task ← pending s !! k;
      conn ← connections s !! task_conn task;
      match task_awaiting task with
      | AwaitResponse _ fullText =>
          let '(_, h) :=
            try_catch (after_response (conn_sessionId conn) fullText r)
              (heap_of s conn) in
          Some (commit s (task_conn task) conn h (delete k (pending s)))
      | AwaitTranscription _ => None
      end
  | Hangup c =>
      conn ← connections s !! c;
      Some {| store := store s;
              connections :=
                <[c := {| conn_sessionId := conn_sessionId conn;
                          conn_ws := {| sent := sent (conn_ws conn);
                                        closed := true |} |}]>
                  (connections s);
              pending := pending s |}
  end.

Fixpoint run (s : Server) (evs : list event) : option Server :=
  match evs with
  | [] => Some s
  | ev :: rest => s' ← step s ev; run s' rest
  end.

(** ** [POST /one-shot] (lines 103-143) *)

Inductive error_text : Type :=
| Literal (s : string)
| MessageOf (e : exn).

Inductive HttpBody : Type :=
| BodyError (error : error_text)
| BodyResult (transcript : string) (summary : json).

Record HttpResponse : Type := {
  status : nat;
  body : HttpBody
}.

(** The [try] block.  [req_file] is [req.file.buffer], [None] when multer
    found no [audio] field; the two providers are passed in. *)
Definition one_shot_try
    (transcribe : TranscriptionRequest -> settled Transcription)
    (respond : ResponseRequest -> settled Response)
    (req_file : option (list Byte.byte)) : result HttpResponse :=
  match req_file with
  | None => Return {| status := 400; body := BodyError (Literal "No audio") |}
  | Some buffer =>
      transcription ←
        settle (transcribe {| file := buffer; file_name := "audio.wav";
                              file_type := "audio/wav";
                              transcription_model := "whisper-1" |});
      completion ←
        settle (respond {| model := "gpt-4o-mini";
                           input := prompt "    " (text transcription);
                           temperature := "0.2" |});
      summary ← parse_or_fallback "Invalid JSON" completion;
      Return {| status := 200;
                body := BodyResult (text transcription) summary |}
  end.

Definition one_shot
    (transcribe : TranscriptionRequest -> settled Transcription)
    (respond : ResponseRequest -> settled Response)
    (req_file : option (list Byte.byte)) : HttpResponse :=
  match one_shot_try transcribe respond req_file with
  | Return response => response
  | Throw e => {| status := 500; body := BodyError (MessageOf e) |}
  end.

End Server.

(** ** Reading the client's messages *)

Section Messages.
Context `{Platform}.

(** [msg] parses to a value whose [type] is the string [ty]. *)
Definition has_type (msg ty : string) : Prop :=
  ∃ payload, JSON_parse msg = Some payload
             ∧ prop payload "type" = Return (Some (JStr ty)).

(** [msg] is an [audioChunk] message whose [data] reads as [data]. *)
Definition is_audioChunk (msg : string) (data : jsval) : Prop :=
  ∃ payload, JSON_parse msg = Some payload
             ∧ prop payload "type" = Return (Some (JStr "audioChunk"))
             ∧ prop payload "data" = Return data.

(** The [type] of [payload] is none of the three the handler knows. *)
Definition other_type (payload : json) : Prop :=
  prop payload "type" ≠ Return (Some (JStr "audioChunk"))
  ∧ prop payload "type" ≠ Return (Some (JStr "chunkEnd"))
  ∧ prop payload "type" ≠ Return (Some (JStr "end")).

(** ** What a client and the transcription provider do to a session

    An [audioChunk] message, a [chunkEnd] message, a message that is none
    of [audioChunk], [chunkEnd] and [end] (of another type, without a type,
    or not JSON at all), or the settling of the oldest flush of the session
    that is still in flight. *)
Inductive action : Type :=
| Chunk (msg : string)
| Flush (msg : string)
| Other (msg : string)
| Settle (r : settled Transcription).

Definition well_formed (a : action) : Prop :=
  match a with
  | Chunk msg => ∃ data, is_audioChunk msg data
  | Flush msg => has_type msg "chunkEnd"
  | Other msg =>
      ¬ has_type msg "audioChunk" ∧ ¬ has_type msg "chunkEnd"
      ∧ ¬ has_type msg "end"
  | Settle _ => True
  end.

(** The event of an action on connection [c], the flushes of the session
    being parked from position [k] on: the oldest is at [k]. *)
Definition action_event (c k : nat) (a : action) : event :=
  match a with
  | Chunk msg | Flush msg | Other msg => Message c msg
  | Settle r => Transcribed k r
  end.

Definition settled_of (a : action) : option (settled Transcription) :=
  match a with
  | Settle r => Some r
  | _ => None
  end.

(** The segment a settled transcription contributes, if it succeeded. *)
Definition segment_of (r : settled Transcription) : option string :=
  match r with
  | Fulfilled transcription => Some (text transcription)
  | Rejected _ => None
  end.

(** The successfully transcribed segments of a script, in the order in
    which they settled, which is the order of their flushes. *)
Definition segments (script : list action) : list string :=
  omap segment_of (omap settled_of script).

Definition partial_text (m : ServerMessage) : option string :=
  match m with
  | MsgPartialTranscript t => Some t
  | _ => None
  end.

(** The session's transcript after a transcription settled. *)
Definition transcript_after (t : string) (r : settled Transcription) : string :=
  match r with
  | Fulfilled transcription => t +:+ " " +:+ text transcription
  | Rejected _ => t
  end.

(** Connection [c] belongs to session [sessionId], which is in the store
    as [sess], and its socket is [w]. *)
Definition session_at (s : Server) (c : nat) (sessionId : string)
    (sess : Session) (w : Socket) : Prop :=
  connections s !! c = Some {| conn_sessionId := sessionId; conn_ws := w |}
  ∧ store s !! sessionId = Some sess.

(** The handler parked by a [chunkEnd] on connection [c] that flushed the
    base64 text [unit]. *)
Definition flush_of (c : nat) (unit : string) : Task :=
  {| task_conn := c;
     task_awaiting :=
       AwaitTranscription
         {| file := Buffer_from_base64 unit;
            file_name := "chunk.wav"; file_type := "audio/wav";
            transcription_model := "whisper-1" |} |}.

(** [ev] is the settling, with a response, of a finalisation parked by a
    connection of session [sessionId]. *)
Definition finalizes (s : Server) (ev : event) (sessionId : string) : Prop :=
  ∃ k completion task conn,
    ev = Responded k (Fulfilled completion)
    ∧ pending s !! k = Some task
    ∧ connections s !! task_conn task = Some conn
    ∧ conn_sessionId conn = sessionId.

(** The session ids that [uuid()] returned in a run of events. *)
Fixpoint created (evs : list event) : list string :=
  match evs with
  | [] => []
  | Connect uuid :: rest => uuid :: created rest
  | _ :: rest => created rest
  end.

(** No finalisation settles in a run of events. *)
Fixpoint no_response (evs : list event) : bool :=
  match evs with
  | [] => true
  | Responded _ _ :: _ => false
  | _ :: rest => no_response rest
  end.

End Messages.

(** ** A platform for the examples

    [render] writes a value as JSON text (strings without characters that
    need escaping).  [example_parse] knows the texts of [example_values]
    and rejects every other text, as [JSON.parse] rejects [not json]. *)
Fixpoint render (v : json) : string :=
  match v with
  | JNull => "null"
  | JBool true => "true"
  | JBool false => "false"
  | JNum repr => repr
  | JStr s => quoted s
  | JArr items => "[" +:+ String.concat "," (map render items) +:+ "]"
  | JObj props =>
      "{" +:+ String.concat ","
                (map (fun kv => match kv with
                                | (k, v) => quoted k +:+ ":" +:+ render v
                                end) props)
      +:+ "}"
  end.

Definition audioChunk_of (data : string) : json :=
  JObj [("type", JStr "audioChunk"); ("data", JStr data)].
Definition chunkEnd_payload : json := JObj [("type", JStr "chunkEnd")].
Definition end_payload : json := JObj [("type", JStr "end")].
Definition ping_payload : json := JObj [("type", JStr "ping")].

Definition example_summary : json :=
  JObj [("subjective", JArr [JStr "pt reports pain"]); ("objective", JArr []);
        ("assessment", JArr []); ("plan", JArr []); ("redFlags", JArr [])].

Definition example_values : list json :=
  [JNull; audioChunk_of "QQ=="; audioChunk_of "Qg=="; chunkEnd_payload;
   end_payload; ping_payload; example_summary].

Definition example_parse (text : string) : option json :=
  List.find (fun v => String.eqb (render v) text) example_values.

(** Decodes the two chunks of the examples; the bytes of the decoded unit
    play no part in the server. *)
Definition example_decode (s : string) : list Byte.byte :=
  if String.eqb s "QQ==" then [Byte.x41]
  else if String.eqb s "Qg==" then [Byte.x42]
  else [].

Definition example_platform : Platform :=
  {| JSON_parse := example_parse; Buffer_from_base64 := example_decode |}.

Definition audioChunk_msg (data : string) : string := render (audioChunk_of data).
Definition chunkEnd_msg : string := render chunkEnd_payload.
Definition end_msg : string := render end_payload.

Definition response_of (t : string) : Response :=
  {| output := [{| content := Some [Some t] |}] |}.

(** One client connected, [uuid()] having returned [s1]. *)
Definition example_socket : Socket :=
  {| sent := [MsgSession "s1"]; closed := false |}.
Definition example_connection : Connection :=
  {| conn_sessionId := "s1"; conn_ws := example_socket |}.
Definition example_session : Session := {| chunks := []; transcript := "" |}.
Definition example_connected : Server :=
  {| store := {["s1" := example_session]};
     connections := [example_connection];
     pending := [] |}.

(** The same client after it sent [end]: its handler is parked on the
    language model. *)
Definition example_final_request : ResponseRequest :=
  {| model := "gpt-4o-mini"; input := prompt "        " "";
     temperature := "0.2" |}.
Definition example_finalizing : Server :=
  {| store := {["s1" := example_session]};
     connections := [example_connection];
     pending := [{| task_conn := 0;
                    task_awaiting := AwaitResponse example_final_request "" |}] |}.

(** The same client after a [chunkEnd] that flushed [QQ==]. *)
Definition example_flushing : Server :=
  {| store := {["s1" := example_session]};
     connections := [example_connection];
     pending := [@flush_of example_platform 0 "QQ=="] |}.

(** The same client after it sent the chunk [QQ==]. *)
Definition example_buffering : Session :=
  {| chunks := [Some (JStr "QQ==")]; transcript := "" |}.
Definition example_buffered : Server :=
  {| store := {["s1" := example_buffering]};
     connections := [example_connection];
     pending := [] |}.

(** The same client after its finalisation completed; and with a flush
    still in flight at that time. *)
Definition example_closed_connection : Connection :=
  {| conn_sessionId := "s1";
     conn_ws := {| sent := [MsgSession "s1"; MsgFinal "" example_summary];
                   closed := true |} |}.
Definition example_finalized : Server :=
  {| store := ∅; connections := [example_closed_connection]; pending := [] |}.
Definition example_late : Server :=
  {| store := ∅;
     connections := [example_closed_connection];
     pending := [@flush_of example_platform 0 "QQ=="] |}.

(** Two clients, the first having sent the chunk [QQ==]. *)
Definition example_two_clients : Server := on_connect "s2" example_buffered.

(** A platform whose parser also knows an [audioChunk] message without
    [data], one whose [data] is [null] and one whose [data] is an object
    with a [toString] key of its own. *)
Definition chunk_without_data : json := JObj [("type", JStr "audioChunk")].
Definition chunk_with_null : json :=
  JObj [("type", JStr "audioChunk"); ("data", JNull)].
Definition unconvertible : json := JObj [("toString", JNum "1")].
Definition chunk_with_object : json :=
  JObj [("type", JStr "audioChunk"); ("data", unconvertible)].
Definition sparse_parse (text : string) : option json :=
  List.find (fun v => String.eqb (render v) text)
    (chunk_without_data :: chunk_with_null :: chunk_with_object
     :: example_values).
Definition sparse_platform : Platform :=
  {| JSON_parse := sparse_parse; Buffer_from_base64 := example_decode |}.

(** The first client after it sent a chunk whose [data] cannot be
    converted to a string. *)
Definition example_stuck_session : Session :=
  {| chunks := [Some unconvertible]; transcript := "" |}.
Definition example_stuck : Server :=
  {| store := {["s1" := example_stuck_session]};
     connections := [example_connection];
     pending := [] |}.

(** ** Vocabulary of the further properties *)

Section Vocabulary.
Context `{Platform}.

(** The connection whose handler an event runs: the one the message came
    on, or the one that parked the handler being resumed. *)
Definition event_connection (s : Server) (ev : event) : option nat :=
  match ev with
  | Connect _ => None
  | Message c _ | Hangup c => Some c
  | Transcribed k _ | Responded k _ => task_conn <$> pending s !! k
  end.

(** What an event may do to the socket of its connection. *)
Definition answers (ev : event) (before after : Socket) : Prop :=
  match ev with
  | Connect _ => False
  | Message _ _ =>
      after = before
      ∨ ∃ e, after = {| sent := sent before ++ [MsgError e];
                        closed := closed before |}
  | Transcribed _ _ =>
      (∃ t, after = {| sent := sent before ++ [MsgPartialTranscript t];
                       closed := closed before |})
      ∨ ∃ e, after = {| sent := sent before ++ [MsgError e];
                        closed := closed before |}
  | Responded _ _ =>
      (∃ fullText summary,
         after = {| sent := sent before ++ [MsgFinal fullText summary];
                    closed := true |})
      ∨ ∃ e, after = {| sent := sent before ++ [MsgError e];
                        closed := closed before |}
  | Hangup _ => after = {| sent := sent before; closed := true |}
  end.

(** The session an event works on: the one [uuid()] returned to a new
    connection, or the one its connection captured. *)
Definition event_session (s : Server) (ev : event) : option string :=
  match ev with
  | Connect uuid => Some uuid
  | _ =>
      c ← event_connection s ev;
      conn_sessionId <$> connections s !! c
  end.

(** A state the server can be in. *)
Definition reachable (s : Server) : Prop :=
  ∃ evs, run initial evs = Some s.

(** The property of the session that the branch of a message type reads
    first. *)
Definition first_read (ty : string) : string :=
  if String.eqb ty "end" then "transcript" else "chunks".

(** An array element that [join] does not skip. *)
Definition defined (x : jsval) : bool :=
  match x with
  | None | Some JNull => false
  | Some _ => true
  end.

Definition is_final (m : ServerMessage) : bool :=
  match m with
  | MsgFinal _ _ => true
  | _ => false
  end.

Definition is_session (m : ServerMessage) : bool :=
  match m with
  | MsgSession _ => true
  | _ => false
  end.

End Vocabulary.

(** * Properties *)

(** The example states are reached from the initial state, and the
    end-to-end run of a chunk, its flush and the finalisation sends the
    partial transcript and then the final message. *)
Example examples_reachable :
  @run example_platform initial [Connect "s1"] = Some example_connected
  ∧ @run example_platform initial
      [Connect "s1"; Message 0 (audioChunk_msg "QQ==")]
    = Some example_buffered
  ∧ @run example_platform initial
      [Connect "s1"; Message 0 (audioChunk_msg "QQ=="); Message 0 chunkEnd_msg]
    = Some example_flushing
  ∧ @run example_platform initial [Connect "s1"; Message 0 end_msg]
    = Some example_finalizing.
Proof. repeat split; vm_compute; reflexivity. Qed.

Example end_to_end :
  connections
  <$> @run example_platform initial
        [Connect "s1"; Message 0 (audioChunk_msg "QQ=="); Message 0 chunkEnd_msg;
         Transcribed 0 (Fulfilled {| text := "hello" |}); Message 0 end_msg;
         Responded 0 (Fulfilled (response_of (render example_summary)))]
  = Some [{| conn_sessionId := "s1";
             conn_ws :=
               {| sent := [MsgSession "s1"; MsgPartialTranscript "hello";
                           MsgFinal "hello" example_summary];
                  closed := true |} |}].
Proof. vm_compute. reflexivity. Qed.

Section Handler.
Context `{Platform}.

Ltac handler_unfold :=
  unfold on_message, after_transcription, after_response, type_is, await,
    lift, sessions_get, sessions_put, sessions_delete, ws_send, ws_close,
    JSON_parse_or_throw, mbind, handler_bind, mret, handler_ret.

Lemma on_message_audioChunk sessionId msg data h sess :
  is_audioChunk msg data →
  sessions h !! sessionId = Some sess →
  on_message sessionId msg h
  = (Return None,
     {| sessions :=
          <[sessionId := {| chunks := chunks sess ++ [data];
                            transcript := transcript sess |}]> (sessions h);
        ws := ws h |}).
Proof.
  intros (payload & Hparse & Htype & Hdata) Hsess.
  handler_unfold. rewrite Hparse, Htype. simpl. rewrite Hsess, Hdata.
  reflexivity.
Qed.

Lemma on_message_chunkEnd sessionId msg h sess unit :
  has_type msg "chunkEnd" →
  sessions h !! sessionId = Some sess →
  join (chunks sess) = Return unit →
  on_message sessionId msg h
  = (Return (Some (AwaitTranscription
                     {| file := Buffer_from_base64 unit;
                        file_name := "chunk.wav"; file_type := "audio/wav";
                        transcription_model := "whisper-1" |})),
     {| sessions :=
          <[sessionId := {| chunks := []; transcript := transcript sess |}]>
            (sessions h);
        ws := ws h |}).
Proof.
  intros (payload & Hparse & Htype) Hsess Hjoin.
  handler_unfold. rewrite Hparse, Htype. simpl. rewrite Hsess. simpl.
  rewrite Hjoin. reflexivity.
Qed.

(** The join of line 45 throws before the buffer is reset. *)
Lemma on_message_chunkEnd_throws sessionId msg h sess e :
  has_type msg "chunkEnd" →
  sessions h !! sessionId = Some sess →
  join (chunks sess) = Throw e →
  on_message sessionId msg h = (Throw e, h).
Proof.
  intros (payload & Hparse & Htype) Hsess Hjoin.
  handler_unfold. rewrite Hparse, Htype. simpl. rewrite Hsess. simpl.
  rewrite Hjoin. reflexivity.
Qed.

Lemma on_message_end sessionId msg h sess :
  has_type msg "end" →
  sessions h !! sessionId = Some sess →
  on_message sessionId msg h
  = (Return (Some (AwaitResponse
                     {| model := "gpt-4o-mini";
                        input := prompt "        " (trim (transcript sess));
                        temperature := "0.2" |}
                     (trim (transcript sess)))),
     h).
Proof.
  intros (payload & Hparse & Htype) Hsess.
  handler_unfold. rewrite Hparse, Htype. simpl. rewrite Hsess.
  destruct h. reflexivity.
Qed.

End Handler.

(** ** One turn of the event loop, case by case *)

Section Steps.
Context `{Platform}.

Lemma same_connection (l : list Connection) c conn :
  l !! c = Some conn →
  <[c := {| conn_sessionId := conn_sessionId conn; conn_ws := conn_ws conn |}]> l
  = l.
Proof. intros Hc. destruct conn. by apply list_insert_id. Qed.

Lemma step_audioChunk s c conn sess msg data :
  connections s !! c = Some conn →
  store s !! conn_sessionId conn = Some sess →
  is_audioChunk msg data →
  step s (Message c msg)
  = Some {| store :=
              <[conn_sessionId conn :=
                  {| chunks := chunks sess ++ [data];
                     transcript := transcript sess |}]> (store s);
            connections := connections s;
            pending := pending s |}.
Proof.
  intros Hc Hsess Hmsg. unfold step. rewrite Hc. simpl.
  unfold try_catch.
  rewrite (on_message_audioChunk _ msg data (heap_of s conn) sess Hmsg Hsess).
  unfold commit. simpl. by rewrite same_connection, app_nil_r.
Qed.

Lemma step_chunkEnd s c conn sess msg unit :
  connections s !! c = Some conn →
  store s !! conn_sessionId conn = Some sess →
  has_type msg "chunkEnd" →
  join (chunks sess) = Return unit →
  step s (Message c msg)
  = Some {| store :=
              <[conn_sessionId conn :=
                  {| chunks := []; transcript := transcript sess |}]> (store s);
            connections := connections s;
            pending :=
              pending s
              ++ [{| task_conn := c;
                     task_awaiting :=
                       AwaitTranscription
                         {| file := Buffer_from_base64 unit;
                            file_name := "chunk.wav"; file_type := "audio/wav";
                            transcription_model := "whisper-1" |} |}] |}.
Proof.
  intros Hc Hsess Hmsg Hjoin. unfold step. rewrite Hc. simpl.
  unfold try_catch.
  rewrite (on_message_chunkEnd _ msg (heap_of s conn) sess unit Hmsg Hsess Hjoin).
  unfold commit. simpl. by rewrite same_connection.
Qed.

(** A [chunkEnd] on a buffer that cannot be joined: the client is sent the
    error, the buffer is kept and nothing is parked. *)
Lemma step_chunkEnd_throws s c conn sess msg e :
  connections s !! c = Some conn →
  store s !! conn_sessionId conn = Some sess →
  has_type msg "chunkEnd" →
  join (chunks sess) = Throw e →
  step s (Message c msg)
  = Some {| store := store s;
            connections :=
              <[c := {| conn_sessionId := conn_sessionId conn;
                        conn_ws :=
                          {| sent := sent (conn_ws conn) ++ [MsgError e];
                             closed := closed (conn_ws conn) |} |}]>
                (connections s);
            pending := pending s |}.
Proof.
  intros Hc Hsess Hmsg Hjoin. unfold step. rewrite Hc. simpl.
  unfold try_catch.
  rewrite (on_message_chunkEnd_throws _ msg (heap_of s conn) sess e Hmsg Hsess Hjoin).
  unfold commit. simpl. by rewrite app_nil_r.
Qed.

Lemma step_end s c conn sess msg :
  connections s !! c = Some conn →
  store s !! conn_sessionId conn = Some sess →
  has_type msg "end" →
  step s (Message c msg)
  = Some {| store := store s;
            connections := connections s;
            pending :=
              pending s
              ++ [{| task_conn := c;
                     task_awaiting :=
                       AwaitResponse
                         {| model := "gpt-4o-mini";
                            input := prompt "        " (trim (transcript sess));
                            temperature := "0.2" |}
                         (trim (transcript sess)) |}] |}.
Proof.
  intros Hc Hsess Hmsg. unfold step. rewrite Hc. simpl.
  unfold try_catch.
  rewrite (on_message_end _ msg (heap_of s conn) sess Hmsg Hsess).
  unfold commit. simpl. by rewrite same_connection.
Qed.

(** A message handled when the session is gone: the first read of
    [sessions.get(sessionId)] throws and the handler replies with an error. *)
Lemma step_end_gone s c conn msg :
  connections s !! c = Some conn →
  store s !! conn_sessionId conn = None →
  has_type msg "end" →
  step s (Message c msg)
  = Some {| store := store s;
            connections :=
              <[c := {| conn_sessionId := conn_sessionId conn;
                        conn_ws :=
                          {| sent := sent (conn_ws conn)
                                     ++ [MsgError (TypeError Undefined "transcript")];
                             closed := closed (conn_ws conn) |} |}]>
                (connections s);
            pending := pending s |}.
Proof.
  intros Hc Hsess (payload & Hparse & Htype). unfold step. rewrite Hc. simpl.
  unfold try_catch, on_message, type_is, lift, sessions_get,
    JSON_parse_or_throw, mbind, handler_bind, mret, handler_ret.
  simpl. rewrite Hparse, Htype. simpl. rewrite Hsess. simpl.
  unfold commit. simpl. by rewrite app_nil_r.
Qed.

Lemma step_transcribed s k c request conn sess transcription :
  pending s !! k
  = Some {| task_conn := c; task_awaiting := AwaitTranscription request |} →
  connections s !! c = Some conn →
  store s !! conn_sessionId conn = Some sess →
  step s (Transcribed k (Fulfilled transcription))
  = Some {| store :=
              <[conn_sessionId conn :=
                  {| chunks := chunks sess;
                     transcript :=
                       transcript sess +:+ " " +:+ text transcription |}]>
                (store s);
            connections :=
              <[c := {| conn_sessionId := conn_sessionId conn;
                        conn_ws :=
                          {| sent := sent (conn_ws conn)
                                     ++ [MsgPartialTranscript (text transcription)];
                             closed := closed (conn_ws conn) |} |}]>
                (connections s);
            pending := delete k (pending s) |}.
Proof.
  intros Hk Hc Hsess. unfold step. rewrite Hk. simpl. rewrite Hc. simpl.
  unfold try_catch, after_transcription, await, lift, sessions_get,
    sessions_put, ws_send, mbind, handler_bind.
  simpl. rewrite Hsess. reflexivity.
Qed.

Lemma step_transcription_failed s k c request conn message :
  pending s !! k
  = Some {| task_conn := c; task_awaiting := AwaitTranscription request |} →
  connections s !! c = Some conn →
  step s (Transcribed k (Rejected message))
  = Some {| store := store s;
            connections :=
              <[c := {| conn_sessionId := conn_sessionId conn;
                        conn_ws :=
                          {| sent := sent (conn_ws conn)
                                     ++ [MsgError (ProviderError message)];
                             closed := closed (conn_ws conn) |} |}]>
                (connections s);
            pending := delete k (pending s) |}.
Proof.
  intros Hk Hc. unfold step. rewrite Hk. simpl. rewrite Hc. reflexivity.
Qed.

Lemma step_responded s k c request fullText conn completion summary :
  pending s !! k
  = Some {| task_conn := c; task_awaiting := AwaitResponse request fullText |} →
  connections s !! c = Some conn →
  parse_or_fallback "Invalid JSON from model" completion = Return summary →
  step s (Responded k (Fulfilled completion))
  = Some {| store := delete (conn_sessionId conn) (store s);
            connections :=
              <[c := {| conn_sessionId := conn_sessionId conn;
                        conn_ws :=
                          {| sent := sent (conn_ws conn)
                                     ++ [MsgFinal fullText summary];
                             closed := true |} |}]>
                (connections s);
            pending := delete k (pending s) |}.
Proof.
  intros Hk Hc Hsum. unfold step. rewrite Hk. simpl. rewrite Hc. simpl.
  unfold try_catch, after_response, await, lift, sessions_delete, ws_send,
    ws_close, mbind, handler_bind.
  simpl. rewrite Hsum. reflexivity.
Qed.

Lemma run_cons s ev s' rest :
  step s ev = Some s' → run s (ev :: rest) = run s' rest.
Proof. intros Hstep. simpl. by rewrite Hstep. Qed.

Lemma run_app evs : ∀ s rest,
  run s (evs ++ rest) = run s evs ≫= λ s', run s' rest.
Proof.
  induction evs as [|ev evs IH]; intros s rest; [reflexivity |].
  simpl. destruct (step s ev) as [s1 |]; [apply IH | reflexivity].
Qed.

Lemma run_one s ev : run s [ev] = step s ev.
Proof. simpl. by destruct (step s ev). Qed.

End Steps.

(** ** The chunk buffer *)

Section ChunkBuffer.
Context `{Platform}.

Lemma sequence_returns (xs : list string) :
  sequence (map Return xs) = Return xs.
Proof.
  induction xs as [|x xs IH]; [reflexivity |]. simpl. by rewrite IH.
Qed.

(** String payloads can always be joined, into their concatenation. *)
Lemma join_strings (payloads : list string) :
  join (map (λ p, Some (JStr p)) payloads) = Return (String.concat "" payloads).
Proof.
  unfold join. rewrite map_map. simpl.
  change (map (λ p : string, Return p) payloads) with (map Return payloads).
  by rewrite sequence_returns.
Qed.

(** A run of [audioChunk] messages appends their payloads to the buffer, in
    arrival order, and does nothing else. *)
Lemma run_audioChunks msgs : ∀ datas s c conn sess rest,
  Forall2 is_audioChunk msgs datas →
  connections s !! c = Some conn →
  store s !! conn_sessionId conn = Some sess →
  run s (map (Message c) msgs ++ rest)
  = run {| store :=
             <[conn_sessionId conn :=
                 {| chunks := chunks sess ++ datas;
                    transcript := transcript sess |}]> (store s);
           connections := connections s;
           pending := pending s |} rest.
Proof.
  induction msgs as [|msg msgs IH]; intros datas s c conn sess rest Hall Hc Hsess.
  - apply Forall2_nil_inv_l in Hall as ->. simpl.
    rewrite app_nil_r, insert_id; [by destruct s | by destruct sess].
  - apply Forall2_cons_inv_l in Hall as (data & datas' & Hmsg & Hall & ->).
    change (map (Message c) (msg :: msgs) ++ rest)
      with (Message c msg :: (map (Message c) msgs ++ rest)).
    rewrite (run_cons _ _ _ _ (step_audioChunk s c conn sess msg data Hc Hsess Hmsg)).
    erewrite IH; [| exact Hall | exact Hc | apply lookup_insert_eq].
    cbn [store connections pending chunks transcript].
    by rewrite insert_insert_eq, <- app_assoc.
Qed.

(** C2, amended.  For every sequence of [audioChunk] messages followed by
    one [chunkEnd] on a session whose buffer is empty, when the payloads can
    be joined, as string payloads always can, the audio unit submitted for
    transcription is decoded from their concatenation in arrival order and
    the session's chunk buffer is empty right after the flush; for the empty
    sequence the unit is decoded from the empty text, and is empty when the
    decoder gives no bytes for the empty text.  When a payload cannot be
    converted to a string the join throws: the client is sent the error,
    nothing is submitted and the buffer is kept. *)
Theorem flush_unit_is_concatenation s c conn sess msgs datas flush :
  connections s !! c = Some conn →
  store s !! conn_sessionId conn = Some sess →
  chunks sess = [] →
  Forall2 is_audioChunk msgs datas →
  has_type flush "chunkEnd" →
  (∀ unit,
     join datas = Return unit →
     run s (map (Message c) msgs ++ [Message c flush])
     = Some {| store :=
                 <[conn_sessionId conn :=
                     {| chunks := []; transcript := transcript sess |}]>
                   (store s);
               connections := connections s;
               pending :=
                 pending s
                 ++ [{| task_conn := c;
                        task_awaiting :=
                          AwaitTranscription
                            {| file := Buffer_from_base64 unit;
                               file_name := "chunk.wav";
                               file_type := "audio/wav";
                               transcription_model := "whisper-1" |} |}] |})
  ∧ (∀ payloads, datas = map (λ p, Some (JStr p)) payloads →
                 join datas = Return (String.concat "" payloads))
  ∧ (datas = [] →
     join datas = Return ""
     ∧ (Buffer_from_base64 "" = [] →
        run s (map (Message c) msgs ++ [Message c flush])
        = Some {| store :=
                    <[conn_sessionId conn :=
                        {| chunks := []; transcript := transcript sess |}]>
                      (store s);
                  connections := connections s;
                  pending :=
                    pending s
                    ++ [{| task_conn := c;
                           task_awaiting :=
                             AwaitTranscription
                               {| file := [];
                                  file_name := "chunk.wav";
                                  file_type := "audio/wav";
                                  transcription_model := "whisper-1" |} |}] |}))
  ∧ (∀ e,
       join datas = Throw e →
       run s (map (Message c) msgs ++ [Message c flush])
       = Some {| store :=
                   <[conn_sessionId conn :=
                       {| chunks := datas; transcript := transcript sess |}]>
                     (store s);
                 connections :=
                   <[c := {| conn_sessionId := conn_sessionId conn;
                             conn_ws :=
                               {| sent := sent (conn_ws conn) ++ [MsgError e];
                                  closed := closed (conn_ws conn) |} |}]>
                     (connections s);
                 pending := pending s |}).
Proof.
  intros Hc Hsess Hempty Hall Hflush.
  assert (Hrun := run_audioChunks msgs datas s c conn sess [Message c flush]
                    Hall Hc Hsess).
  rewrite Hempty in Hrun. cbn [app] in Hrun.
  assert (Hflushed : ∀ unit,
            join datas = Return unit →
            run s (map (Message c) msgs ++ [Message c flush])
            = Some {| store :=
                        <[conn_sessionId conn :=
                            {| chunks := []; transcript := transcript sess |}]>
                          (store s);
                      connections := connections s;
                      pending :=
                        pending s
                        ++ [{| task_conn := c;
                               task_awaiting :=
                                 AwaitTranscription
                                   {| file := Buffer_from_base64 unit;
                                      file_name := "chunk.wav";
                                      file_type := "audio/wav";
                                      transcription_model := "whisper-1" |} |}] |}).
  { intros unit Hjoin. rewrite Hrun, run_one.
    erewrite step_chunkEnd;
      [| exact Hc | apply lookup_insert_eq | exact Hflush | exact Hjoin].
    cbn [store connections pending chunks transcript].
    by rewrite insert_insert_eq. }
  split; [exact Hflushed |]. split; [| split].
  - intros payloads ->. apply join_strings.
  - intros ->. split; [reflexivity |]. intros Hdecode.
    rewrite (Hflushed "" eq_refl). by rewrite Hdecode.
  - intros e Hjoin. rewrite Hrun, run_one.
    erewrite step_chunkEnd_throws;
      [| exact Hc | apply lookup_insert_eq | exact Hflush | exact Hjoin].
    reflexivity.
Qed.

End ChunkBuffer.

Lemma example_is_audioChunk data :
  In data ["QQ=="; "Qg=="] →
  @is_audioChunk example_platform (audioChunk_msg data) (Some (JStr data)).
Proof.
  intros [<- | [<- | []]]; eexists; (split; [| split]); reflexivity.
Qed.

Lemma example_has_type payload ty :
  In (payload, ty) [(chunkEnd_payload, "chunkEnd"); (end_payload, "end")] →
  @has_type example_platform (render payload) ty.
Proof.
  intros [[= <- <-] | [[= <- <-] | []]]; eexists; split; reflexivity.
Qed.

Lemma flush_unit_is_concatenation_witness :
  @run example_platform example_connected
    (map (Message 0) [audioChunk_msg "QQ=="; audioChunk_msg "Qg=="]
     ++ [Message 0 chunkEnd_msg])
  = Some {| store := <["s1" := example_session]> (store example_connected);
            connections := [example_connection];
            pending :=
              [{| task_conn := 0;
                  task_awaiting :=
                    AwaitTranscription
                      {| file := example_decode "QQ==Qg==";
                         file_name := "chunk.wav"; file_type := "audio/wav";
                         transcription_model := "whisper-1" |} |}] |}.
Proof.
  refine (proj1 (@flush_unit_is_concatenation example_platform
                   example_connected 0 example_connection example_session
                   [audioChunk_msg "QQ=="; audioChunk_msg "Qg=="]
                   [Some (JStr "QQ=="); Some (JStr "Qg==")] chunkEnd_msg
                   eq_refl eq_refl eq_refl _ _) "QQ==Qg==" eq_refl).
  - repeat constructor; apply example_is_audioChunk; simpl; tauto.
  - apply (example_has_type chunkEnd_payload); simpl; tauto.
Defined.

(** C2 as stated fails on a payload that cannot be converted to a string:
    the chunk whose [data] is an object with a [toString] key is buffered,
    the join of the [chunkEnd] throws, the client is sent the error, no
    unit is submitted and the buffer still holds the chunk. *)
Lemma flush_of_unconvertible_chunk_throws :
  @run sparse_platform example_connected
    [Message 0 (render chunk_with_object); Message 0 chunkEnd_msg]
  = Some {| store :=
              {["s1" := {| chunks := [Some unconvertible];
                           transcript := "" |}]};
            connections :=
              [{| conn_sessionId := "s1";
                  conn_ws :=
                    {| sent := [MsgSession "s1"; MsgError ToPrimitiveError];
                       closed := false |} |}];
            pending := [] |}.
Proof. vm_compute. reflexivity. Qed.

(** ** The transcript *)

Section Strings.

Lemma append_nil_l (s : string) : "" +:+ s = s.
Proof. reflexivity. Qed.

Lemma append_cons (a : ascii) (s t : string) :
  String a s +:+ t = String a (s +:+ t).
Proof. reflexivity. Qed.

Lemma append_assoc (s t u : string) : (s +:+ t) +:+ u = s +:+ t +:+ u.
Proof.
  induction s as [|a s IH]; [reflexivity |].
  by rewrite !append_cons, IH.
Qed.

Lemma append_nil_r (s : string) : s +:+ "" = s.
Proof.
  induction s as [|a s IH]; [reflexivity |].
  by rewrite append_cons, IH.
Qed.

(** A leading space does not survive [trim]. *)
Lemma trim_leading_space (s : string) : trim (" " +:+ s) = trim s.
Proof. reflexivity. Qed.

(** Segments appended one by one, each after a space, are the segments
    joined by spaces, after one leading space. *)
Lemma appended_segments (segs : list string) :
  String.concat "" (map (λ seg, " " +:+ seg) segs)
  = match segs with
    | [] => ""
    | _ :: _ => " " +:+ String.concat " " segs
    end.
Proof.
  induction segs as [|seg segs IH]; [reflexivity |].
  destruct segs as [|seg' segs]; [reflexivity |].
  change (String.concat "" (map (λ seg, " " +:+ seg) (seg :: seg' :: segs)))
    with ((" " +:+ seg) +:+ "" +:+
          String.concat "" (map (λ seg, " " +:+ seg) (seg' :: segs))).
  rewrite IH.
  change (String.concat " " (seg :: seg' :: segs))
    with (seg +:+ " " +:+ String.concat " " (seg' :: segs)).
  by rewrite append_nil_l, append_assoc.
Qed.

Lemma concat_cons (x : string) (l : list string) :
  String.concat "" (x :: l) = x +:+ String.concat "" l.
Proof.
  destruct l as [|y l]; [by rewrite append_nil_r | reflexivity].
Qed.

Lemma transcript_after_all (rs : list (settled Transcription)) : ∀ t,
  fold_left transcript_after rs t
  = t +:+ String.concat "" (map (λ seg, " " +:+ seg) (omap segment_of rs)).
Proof.
  induction rs as [|r rs IH]; intros t.
  - by rewrite append_nil_r.
  - cbn [fold_left]. rewrite IH. destruct r as [transcription | message].
    + change (omap segment_of (Fulfilled transcription :: rs))
        with (text transcription :: omap segment_of rs).
      cbn [map transcript_after]. by rewrite concat_cons, !append_assoc.
    + reflexivity.
Qed.

(** The transcript built by the handler, trimmed, is the successful
    segments joined by single spaces, trimmed. *)
Lemma trim_transcript (rs : list (settled Transcription)) :
  trim (fold_left transcript_after rs "")
  = trim (String.concat " " (omap segment_of rs)).
Proof.
  rewrite transcript_after_all, append_nil_l, appended_segments.
  destruct (omap segment_of rs); [reflexivity | apply trim_leading_space].
Qed.

End Strings.

Section Transcript.
Context `{Platform}.

(** A message that is none of the three the handler knows changes nothing
    but the socket, where it is answered by nothing or by one error. *)
Lemma step_other s c conn msg :
  connections s !! c = Some conn →
  ¬ has_type msg "audioChunk" →
  ¬ has_type msg "chunkEnd" →
  ¬ has_type msg "end" →
  ∃ replies,
    step s (Message c msg)
    = Some {| store := store s;
              connections :=
                <[c := {| conn_sessionId := conn_sessionId conn;
                          conn_ws := {| sent := sent (conn_ws conn) ++ replies;
                                        closed := closed (conn_ws conn) |} |}]>
                  (connections s);
              pending := pending s |}
    ∧ omap partial_text replies = [].
Proof.
  intros Hc Haudio Hflush Hend. unfold step. rewrite Hc. simpl.
  unfold try_catch, on_message, type_is, lift, JSON_parse_or_throw,
    mbind, handler_bind, mret, handler_ret.
  destruct (JSON_parse msg) as [payload |] eqn:Hparse; simpl;
    [| exists [MsgError (SyntaxError msg)]; unfold commit; simpl;
       by rewrite app_nil_r].
  destruct (prop payload "type") as [type | e] eqn:Htype; simpl;
    [| exists [MsgError e]; unfold commit; simpl; by rewrite app_nil_r].
  assert (Hnot : ∀ ty, ¬ has_type msg ty → strict_eq type ty = false).
  { intros ty Hty. destruct (strict_eq type ty) eqn:Heq; [| done].
    destruct Hty. exists payload. split; [done |]. rewrite Htype.
    destruct type as [[| b | repr | t | items | props] |]; simpl in Heq;
      try done.
    by apply String.eqb_eq in Heq as ->. }
  rewrite (Hnot _ Haudio), (Hnot _ Hflush), (Hnot _ Hend). simpl.
  exists []. unfold commit. destruct conn as [sid [sent0 closed0]]. simpl.
  by rewrite !app_nil_r.
Qed.

(** A script of chunks, flushes and settlements, the oldest flush in flight
    settling first: the flushes of the session stay parked after those that
    were there before, the transcript is what the settlements appended in
    turn, and the partial transcripts sent are the successful segments. *)
Lemma run_script script : ∀ s s1 c sessionId sess w before flights,
  Forall well_formed script →
  session_at s c sessionId sess w →
  pending s = before ++ flights →
  Forall (λ task, ∃ unit, task = flush_of c unit) flights →
  run s (map (action_event c (length before)) script) = Some s1 →
  ∃ sess1 replies flights1,
    session_at s1 c sessionId sess1
      {| sent := sent w ++ replies; closed := closed w |}
    ∧ pending s1 = before ++ flights1
    ∧ Forall (λ task, ∃ unit, task = flush_of c unit) flights1
    ∧ transcript sess1
      = fold_left transcript_after (omap settled_of script) (transcript sess)
    ∧ omap partial_text replies = segments script.
Proof.
  induction script as [|a script IH];
    intros s s1 c sessionId sess w before flights Hwf Hat Hp Hfl Hrun.
  - injection Hrun as <-. exists sess, [], flights.
    rewrite app_nil_r. destruct w as [sent0 closed0]. cbn [sent closed].
    split; [exact Hat |]. split; [exact Hp |]. split; [exact Hfl |].
    split; reflexivity.
  - apply Forall_cons in Hwf as [Ha Hwf]. destruct Hat as [Hc Hsess].
    assert (Hlt : c < length (connections s)) by (by eapply lookup_lt_Some).
    cbn [map] in Hrun.
    destruct a as [msg | msg | msg | r]; cbn [action_event] in Hrun.
    + destruct Ha as [data Hmsg].
      rewrite (run_cons _ _ _ _ (step_audioChunk s c _ sess msg data Hc Hsess Hmsg))
        in Hrun.
      apply (IH _ s1 c sessionId
               {| chunks := chunks sess ++ [data]; transcript := transcript sess |}
               w before flights Hwf) in Hrun;
        [| split; [exact Hc | apply lookup_insert_eq] | exact Hp | exact Hfl].
      exact Hrun.
    + destruct (join (chunks sess)) as [unit | e] eqn:Hjoin.
      * rewrite (run_cons _ _ _ _
                   (step_chunkEnd s c _ sess msg unit Hc Hsess Ha Hjoin)) in Hrun.
        apply (IH _ s1 c sessionId
                 {| chunks := []; transcript := transcript sess |}
                 w before (flights ++ [flush_of c unit]) Hwf)
          in Hrun;
          [| split; [exact Hc | apply lookup_insert_eq]
           | cbn [pending]; by rewrite Hp, <- app_assoc
           | apply Forall_app; split; [exact Hfl | by repeat constructor; eexists]].
        exact Hrun.
      * rewrite (run_cons _ _ _ _
                   (step_chunkEnd_throws s c _ sess msg e Hc Hsess Ha Hjoin))
          in Hrun.
        apply (IH _ s1 c sessionId sess
                 {| sent := sent w ++ [MsgError e]; closed := closed w |}
                 before flights Hwf) in Hrun;
          [| split; [by apply list_lookup_insert_eq | exact Hsess]
           | exact Hp | exact Hfl].
        destruct Hrun as (sess1 & replies & flights1 & Hat1 & Hrest).
        exists sess1, (MsgError e :: replies), flights1.
        cbn [sent closed] in Hat1. rewrite <- app_assoc in Hat1. by split.
    + destruct Ha as (Haudio & Hflush & Hend).
      destruct (step_other s c _ msg Hc Haudio Hflush Hend)
        as (others & Hstep & Hothers).
      rewrite (run_cons _ _ _ _ Hstep) in Hrun.
      apply (IH _ s1 c sessionId sess
               {| sent := sent w ++ others; closed := closed w |}
               before flights Hwf) in Hrun;
        [| split; [by apply list_lookup_insert_eq | exact Hsess]
         | exact Hp | exact Hfl].
      destruct Hrun as (sess1 & replies & flights1 & Hat1 & Hp1 & Hfl1 & Ht & Hr).
      exists sess1, (others ++ replies), flights1.
      cbn [sent closed] in Hat1. rewrite <- app_assoc in Hat1.
      split; [exact Hat1 |]. split; [exact Hp1 |]. split; [exact Hfl1 |].
      split; [exact Ht |]. by rewrite omap_app, Hothers, Hr.
    + destruct flights as [|flight flights].
      { exfalso. revert Hrun. simpl.
        rewrite Hp, app_nil_r, (lookup_ge_None_2 before (length before)) by lia.
        done. }
      apply Forall_cons in Hfl as [[unit ->] Hfl].
      assert (Hk : pending s !! length before = Some (flush_of c unit))
        by (rewrite Hp; by apply list_lookup_middle).
      destruct r as [transcription | message].
      * rewrite (run_cons _ _ _ _
                   (step_transcribed s _ c _ _ sess transcription Hk Hc Hsess))
          in Hrun.
        apply (IH _ s1 c sessionId
                 {| chunks := chunks sess;
                    transcript := transcript sess +:+ " " +:+ text transcription |}
                 {| sent := sent w ++ [MsgPartialTranscript (text transcription)];
                    closed := closed w |}
                 before flights Hwf) in Hrun;
          [| split; [by apply list_lookup_insert_eq | apply lookup_insert_eq]
           | cbn [pending]; by rewrite Hp, delete_middle
           | exact Hfl].
        destruct Hrun as (sess1 & replies & flights1 & Hat1 & Hp1 & Hfl1 & Ht & Hr).
        exists sess1, (MsgPartialTranscript (text transcription) :: replies),
          flights1.
        cbn [sent closed] in Hat1. rewrite <- app_assoc in Hat1.
        split; [exact Hat1 |]. split; [exact Hp1 |]. split; [exact Hfl1 |].
        split; [exact Ht |].
        change (text transcription :: omap partial_text replies
                = text transcription :: segments script).
        by rewrite Hr.
      * rewrite (run_cons _ _ _ _
                   (step_transcription_failed s _ c _ _ message Hk Hc)) in Hrun.
        apply (IH _ s1 c sessionId sess
                 {| sent := sent w ++ [MsgError (ProviderError message)];
                    closed := closed w |}
                 before flights Hwf) in Hrun;
          [| split; [by apply list_lookup_insert_eq | exact Hsess]
           | cbn [pending]; by rewrite Hp, delete_middle
           | exact Hfl].
        destruct Hrun as (sess1 & replies & flights1 & Hat1 & Hrest).
        exists sess1, (MsgError (ProviderError message) :: replies), flights1.
        cbn [sent closed] in Hat1. rewrite <- app_assoc in Hat1. by split.
Qed.

(** C1, amended.  For every session whose transcriptions settle in flush
    order and have all settled when [end] is handled, however many flushes
    there were and however chunks, flushes and settlements overlapped, the
    transcript in the [final] message is the successfully transcribed
    segments, in flush order, joined by single spaces and trimmed; they are
    the partial transcripts the client was sent before it. *)
Theorem final_transcript_of_settled_flushes
    s c sessionId sess w script s1 finish completion summary :
  session_at s c sessionId sess w →
  transcript sess = "" →
  Forall well_formed script →
  run s (map (action_event c (length (pending s))) script) = Some s1 →
  pending s1 = pending s →
  has_type finish "end" →
  parse_or_fallback "Invalid JSON from model" completion = Return summary →
  ∃ s' replies,
    run s (map (action_event c (length (pending s))) script
           ++ [Message c finish;
               Responded (length (pending s)) (Fulfilled completion)])
    = Some s'
    ∧ connections s' !! c
      = Some {| conn_sessionId := sessionId;
                conn_ws :=
                  {| sent :=
                       sent w ++ replies
                       ++ [MsgFinal (trim (String.concat " " (segments script)))
                             summary];
                     closed := true |} |}
    ∧ omap partial_text replies = segments script.
Proof.
  intros Hat Hfresh Hwf Hrun Hsettled Hfinish Hsummary.
  destruct (run_script script s s1 c sessionId sess w (pending s) []
              Hwf Hat (eq_sym (app_nil_r _)) (Forall_nil_2 _) Hrun)
    as (sess1 & replies & flights1 & [Hc Hsess] & _ & _ & Ht & Hreplies).
  rewrite Hfresh in Ht.
  rewrite run_app, Hrun. cbn [mbind option_bind].
  assert (Hend := step_end s1 c _ sess1 finish Hc Hsess Hfinish).
  rewrite (run_cons _ _ _ _ Hend), run_one. clear Hend.
  erewrite step_responded;
    [| cbn [pending]; rewrite Hsettled; by apply list_lookup_middle
     | exact Hc | exact Hsummary].
  eexists. exists replies. split; [reflexivity |]. split; [| exact Hreplies].
  cbn [connections conn_sessionId conn_ws sent closed].
  rewrite list_lookup_insert_eq by (by eapply lookup_lt_Some).
  unfold segments. by rewrite Ht, trim_transcript, <- app_assoc.
Qed.

End Transcript.

Lemma example_other_message msg :
  In msg ["not json"; "null"; render ping_payload] →
  @well_formed example_platform (Other msg).
Proof.
  intros [<- | [<- | [<- | []]]]; repeat split;
    intros (payload & Hparse & Htype); vm_compute in Hparse;
    try discriminate; injection Hparse as <-; discriminate.
Qed.

Lemma final_transcript_of_settled_flushes_witness :
  ∃ s' replies,
    @run example_platform example_connected
      (map (action_event 0 0)
         [Chunk (audioChunk_msg "QQ=="); Flush chunkEnd_msg;
          Other "not json"; Chunk (audioChunk_msg "Qg=="); Flush chunkEnd_msg;
          Settle (Fulfilled {| text := "hello" |}); Settle (Rejected "boom");
          Other (render ping_payload);
          Flush chunkEnd_msg; Settle (Fulfilled {| text := "world" |})]
       ++ [Message 0 end_msg;
           Responded 0 (Fulfilled (response_of (render example_summary)))])
    = Some s'
    ∧ connections s' !! 0
      = Some {| conn_sessionId := "s1";
                conn_ws :=
                  {| sent :=
                       [MsgSession "s1"] ++ replies
                       ++ [MsgFinal "hello world" example_summary];
                     closed := true |} |}
    ∧ omap partial_text replies = ["hello"; "world"].
Proof.
  eapply (@final_transcript_of_settled_flushes example_platform
            example_connected 0 "s1" example_session example_socket
            [Chunk (audioChunk_msg "QQ=="); Flush chunkEnd_msg;
             Other "not json"; Chunk (audioChunk_msg "Qg=="); Flush chunkEnd_msg;
             Settle (Fulfilled {| text := "hello" |}); Settle (Rejected "boom");
             Other (render ping_payload);
             Flush chunkEnd_msg; Settle (Fulfilled {| text := "world" |})]
            _ end_msg (response_of (render example_summary)) example_summary).
  - split; reflexivity.
  - reflexivity.
  - repeat constructor;
      try (apply (example_has_type chunkEnd_payload); simpl; tauto);
      try (apply example_other_message; simpl; tauto);
      eexists; apply example_is_audioChunk; simpl; tauto.
  - vm_compute. reflexivity.
  - reflexivity.
  - apply (example_has_type end_payload); simpl; tauto.
  - reflexivity.
Defined.

(** C1 as stated fails when [end] is handled while a transcription is in
    flight: the segment [hello] is transcribed successfully, and sent to the
    client as a partial transcript, but the [final] message has an empty
    transcript.  It fails too when two flushes settle out of flush order
    before [end]: the transcript of the [final] message has the segment of
    the second flush first. *)
Lemma final_misses_segment_in_flight :
  connections
  <$> @run example_platform example_connected
        [Message 0 (audioChunk_msg "QQ=="); Message 0 chunkEnd_msg;
         Message 0 end_msg;
         Transcribed 0 (Fulfilled {| text := "hello" |});
         Responded 0 (Fulfilled (response_of (render example_summary)))]
  = Some [{| conn_sessionId := "s1";
             conn_ws :=
               {| sent :=
                    [MsgSession "s1"; MsgPartialTranscript "hello";
                     MsgFinal "" example_summary];
                  closed := true |} |}]
  ∧ trim (String.concat " " ["hello"]) ≠ ""
  ∧ connections
    <$> @run example_platform example_connected
          [Message 0 (audioChunk_msg "QQ=="); Message 0 chunkEnd_msg;
           Message 0 (audioChunk_msg "Qg=="); Message 0 chunkEnd_msg;
           Transcribed 1 (Fulfilled {| text := "second" |});
           Transcribed 0 (Fulfilled {| text := "first" |});
           Message 0 end_msg;
           Responded 0 (Fulfilled (response_of (render example_summary)))]
    = Some [{| conn_sessionId := "s1";
               conn_ws :=
                 {| sent :=
                      [MsgSession "s1"; MsgPartialTranscript "second";
                       MsgPartialTranscript "first";
                       MsgFinal "second first" example_summary];
                    closed := true |} |}].
Proof.
  split; [vm_compute; reflexivity |].
  split; [discriminate | vm_compute; reflexivity].
Qed.

(** ** Flushes in flight *)

Section Flushes.
Context `{Platform}.

Lemma flush_at s c sessionId sess w flush unit :
  session_at s c sessionId sess w →
  has_type flush "chunkEnd" →
  join (chunks sess) = Return unit →
  ∃ s',
    step s (Message c flush) = Some s'
    ∧ pending s' = pending s ++ [flush_of c unit]
    ∧ session_at s' c sessionId
        {| chunks := []; transcript := transcript sess |} w.
Proof.
  intros [Hc Hsess] Hflush Hjoin.
  rewrite (step_chunkEnd s c _ sess flush unit Hc Hsess Hflush Hjoin).
  eexists. split; [reflexivity |]. split; [reflexivity |].
  split; [exact Hc | apply lookup_insert_eq].
Qed.

Lemma audioChunks_at s c sessionId sess w msgs datas rest :
  session_at s c sessionId sess w →
  Forall2 is_audioChunk msgs datas →
  ∃ s',
    run s (map (Message c) msgs ++ rest) = run s' rest
    ∧ pending s' = pending s
    ∧ session_at s' c sessionId
        {| chunks := chunks sess ++ datas; transcript := transcript sess |} w.
Proof.
  intros [Hc Hsess] Hall.
  rewrite (run_audioChunks msgs datas s c _ sess rest Hall Hc Hsess).
  eexists. split; [reflexivity |]. split; [reflexivity |].
  split; [exact Hc | apply lookup_insert_eq].
Qed.

Lemma transcribed_at s k c unit sessionId sess w transcription :
  pending s !! k = Some (flush_of c unit) →
  session_at s c sessionId sess w →
  ∃ s',
    step s (Transcribed k (Fulfilled transcription)) = Some s'
    ∧ pending s' = delete k (pending s)
    ∧ session_at s' c sessionId
        {| chunks := chunks sess;
           transcript := transcript sess +:+ " " +:+ text transcription |}
        {| sent := sent w ++ [MsgPartialTranscript (text transcription)];
           closed := closed w |}.
Proof.
  intros Hk [Hc Hsess].
  rewrite (step_transcribed s k c _ _ sess transcription Hk Hc Hsess).
  eexists. split; [reflexivity |]. split; [reflexivity |].
  split; [| apply lookup_insert_eq].
  apply list_lookup_insert_eq. by eapply lookup_lt_Some.
Qed.

(** C3, amended.  Two [chunkEnd] messages handled back to back, each on a
    buffer that can be joined as buffers of strings always can, put two
    flushes in flight at once: nothing serialises them.  Each flush carries
    exactly the buffer gathered before its [chunkEnd], and the buffer is
    empty after each.  Both segments are appended, in the order in which
    the two transcriptions settle: the flush order when the first settles
    first, the reverse when the second does. *)
Theorem back_to_back_flushes
    s c sessionId sess w flush1 unit1 msgs datas flush2 unit2 t1 t2 :
  session_at s c sessionId sess w →
  has_type flush1 "chunkEnd" →
  join (chunks sess) = Return unit1 →
  Forall2 is_audioChunk msgs datas →
  has_type flush2 "chunkEnd" →
  join datas = Return unit2 →
  ∃ s2,
    run s (Message c flush1 :: map (Message c) msgs ++ [Message c flush2])
    = Some s2
    ∧ pending s2
      = pending s ++ [flush_of c unit1; flush_of c unit2]
    ∧ store s2 !! sessionId
      = Some {| chunks := []; transcript := transcript sess |}
    ∧ (∃ s',
         run s2 [Transcribed (length (pending s)) (Fulfilled t1);
                 Transcribed (length (pending s)) (Fulfilled t2)]
         = Some s'
         ∧ pending s' = pending s
         ∧ store s' !! sessionId
           = Some {| chunks := [];
                     transcript :=
                       (transcript sess +:+ " " +:+ text t1)
                       +:+ " " +:+ text t2 |})
    ∧ (∃ s',
         run s2 [Transcribed (S (length (pending s))) (Fulfilled t2);
                 Transcribed (length (pending s)) (Fulfilled t1)]
         = Some s'
         ∧ pending s' = pending s
         ∧ store s' !! sessionId
           = Some {| chunks := [];
                     transcript :=
                       (transcript sess +:+ " " +:+ text t2)
                       +:+ " " +:+ text t1 |}).
Proof.
  intros Hat Hflush1 Hjoin1 Hall Hflush2 Hjoin2.
  destruct (flush_at s c sessionId sess w flush1 unit1 Hat Hflush1 Hjoin1)
    as (s1 & Hstep1 & Hp1 & Hat1).
  destruct (audioChunks_at s1 c sessionId _ w msgs datas [Message c flush2]
              Hat1 Hall) as (s1' & Hrun & Hp1' & Hat1').
  destruct (flush_at s1' c sessionId _ w flush2 unit2 Hat1' Hflush2 Hjoin2)
    as (s2 & Hstep2 & Hp2 & Hat2).
  cbn [chunks transcript app] in Hp2, Hat2.
  assert (Hp : pending s2
               = pending s ++ [flush_of c unit1;
                               flush_of c unit2])
    by (by rewrite Hp2, Hp1', Hp1, <- app_assoc).
  exists s2. split; [by rewrite (run_cons _ _ _ _ Hstep1), Hrun, run_one |].
  split; [exact Hp |]. split; [apply Hat2 |]. split.
  - assert (Hk1 : pending s2 !! length (pending s)
                  = Some (flush_of c unit1))
      by (rewrite Hp; by apply list_lookup_middle).
    destruct (transcribed_at _ _ _ _ _ _ _ t1 Hk1 Hat2)
      as (s3 & Hstep3 & Hp3 & Hat3).
    rewrite Hp, delete_middle in Hp3.
    assert (Hk2 : pending s3 !! length (pending s)
                  = Some (flush_of c unit2))
      by (rewrite Hp3; by apply list_lookup_middle).
    destruct (transcribed_at _ _ _ _ _ _ _ t2 Hk2 Hat3)
      as (s4 & Hstep4 & Hp4 & Hat4).
    rewrite Hp3, delete_middle, app_nil_r in Hp4.
    exists s4. rewrite (run_cons _ _ _ _ Hstep3), run_one.
    split; [exact Hstep4 |]. split; [exact Hp4 | apply Hat4].
  - assert (Hsplit : pending s2
                     = (pending s ++ [flush_of c unit1])
                       ++ [flush_of c unit2])
      by (by rewrite Hp, <- app_assoc).
    assert (Hlen : S (length (pending s))
                   = length (pending s ++ [flush_of c unit1]))
      by (rewrite length_app; simpl; lia).
    assert (Hk2 : pending s2 !! S (length (pending s))
                  = Some (flush_of c unit2))
      by (rewrite Hsplit; by apply list_lookup_middle).
    destruct (transcribed_at _ _ _ _ _ _ _ t2 Hk2 Hat2)
      as (s3 & Hstep3 & Hp3 & Hat3).
    rewrite Hsplit, Hlen, delete_middle, app_nil_r in Hp3.
    assert (Hk1 : pending s3 !! length (pending s)
                  = Some (flush_of c unit1))
      by (rewrite Hp3; by apply list_lookup_middle).
    destruct (transcribed_at _ _ _ _ _ _ _ t1 Hk1 Hat3)
      as (s4 & Hstep4 & Hp4 & Hat4).
    rewrite Hp3, delete_middle, app_nil_r in Hp4.
    exists s4. rewrite (run_cons _ _ _ _ Hstep3), run_one.
    split; [exact Hstep4 |]. split; [exact Hp4 | apply Hat4].
Qed.

End Flushes.

Lemma back_to_back_flushes_witness :
  ∃ s2,
    @run example_platform example_buffered
      (Message 0 chunkEnd_msg
       :: map (Message 0) [audioChunk_msg "Qg=="] ++ [Message 0 chunkEnd_msg])
    = Some s2
    ∧ pending s2
      = [] ++ [@flush_of example_platform 0 "QQ==";
               @flush_of example_platform 0 "Qg=="]
    ∧ store s2 !! "s1" = Some {| chunks := []; transcript := "" |}
    ∧ (∃ s',
         @run example_platform s2
           [Transcribed 0 (Fulfilled {| text := "a" |});
            Transcribed 0 (Fulfilled {| text := "b" |})]
         = Some s'
         ∧ pending s' = []
         ∧ store s' !! "s1" = Some {| chunks := []; transcript := " a b" |})
    ∧ (∃ s',
         @run example_platform s2
           [Transcribed 1 (Fulfilled {| text := "b" |});
            Transcribed 0 (Fulfilled {| text := "a" |})]
         = Some s'
         ∧ pending s' = []
         ∧ store s' !! "s1" = Some {| chunks := []; transcript := " b a" |}).
Proof.
  apply (@back_to_back_flushes example_platform example_buffered 0 "s1"
           example_buffering example_socket chunkEnd_msg "QQ=="
           [audioChunk_msg "Qg=="] [Some (JStr "Qg==")] chunkEnd_msg "Qg=="
           {| text := "a" |} {| text := "b" |}).
  - split; reflexivity.
  - apply (example_has_type chunkEnd_payload); simpl; tauto.
  - reflexivity.
  - repeat constructor. apply example_is_audioChunk; simpl; tauto.
  - apply (example_has_type chunkEnd_payload); simpl; tauto.
  - reflexivity.
Defined.

(** C3 as stated fails: the chunks [QQ==] and [Qg==] are flushed in that
    order by two [chunkEnd] messages handled back to back; when the second
    transcription settles first, with [b], and the first one after it, with
    [a], the transcript and the partial transcripts sent are in the order
    [b], [a].  And on a buffer that cannot be joined two [chunkEnd]
    messages flush nothing: each is answered with the error and the buffer
    is kept. *)
Lemma back_to_back_flushes_out_of_order :
  pending
  <$> @run example_platform example_connected
        [Message 0 (audioChunk_msg "QQ=="); Message 0 chunkEnd_msg;
         Message 0 (audioChunk_msg "Qg=="); Message 0 chunkEnd_msg]
  = Some [@flush_of example_platform 0 "QQ==";
          @flush_of example_platform 0 "Qg=="]
  ∧ (λ s, (store s !! "s1", connections s))
    <$> @run example_platform example_connected
          [Message 0 (audioChunk_msg "QQ=="); Message 0 chunkEnd_msg;
           Message 0 (audioChunk_msg "Qg=="); Message 0 chunkEnd_msg;
           Transcribed 1 (Fulfilled {| text := "b" |});
           Transcribed 0 (Fulfilled {| text := "a" |})]
    = Some (Some {| chunks := []; transcript := " b a" |},
            [{| conn_sessionId := "s1";
                conn_ws :=
                  {| sent :=
                       [MsgSession "s1"; MsgPartialTranscript "b";
                        MsgPartialTranscript "a"];
                     closed := false |} |}])
  ∧ @run sparse_platform example_connected
      [Message 0 (render chunk_with_object); Message 0 chunkEnd_msg;
       Message 0 chunkEnd_msg]
    = Some {| store :=
                {["s1" := {| chunks := [Some unconvertible];
                             transcript := "" |}]};
              connections :=
                [{| conn_sessionId := "s1";
                    conn_ws :=
                      {| sent := [MsgSession "s1"; MsgError ToPrimitiveError;
                                  MsgError ToPrimitiveError];
                         closed := false |} |}];
              pending := [] |}.
Proof. repeat split; vm_compute; reflexivity. Qed.

(** ** Finalisation *)

Section Finalize.
Context `{Platform}.

Lemma parse_or_fallback_malformed label completion raw :
  output_text completion = Return (Some raw) →
  JSON_parse raw = None →
  parse_or_fallback label completion
  = Return (JObj [("error", JStr label); ("raw", JStr raw)]).
Proof.
  intros Htext Hparse. unfold parse_or_fallback, JSON_parse_or_throw.
  rewrite Htext. simpl. by rewrite Hparse.
Qed.

(** C4.  When the text of the model's response is not parseable JSON,
    finalisation is not aborted.  On the streaming path the parked [end]
    handler, whenever the response arrives, sends a [final] message whose
    summary is the fallback object carrying the raw text, closes the socket
    and deletes the session; so does a finalisation run from the [end]
    message on.  On the batch path the response is a success whose summary
    is the fallback object. *)
Theorem malformed_output_never_aborts_finalize completion raw :
  output_text completion = Return (Some raw) →
  JSON_parse raw = None →
  (∀ s k c request fullText conn,
     pending s !! k
     = Some {| task_conn := c; task_awaiting := AwaitResponse request fullText |} →
     connections s !! c = Some conn →
     step s (Responded k (Fulfilled completion))
     = Some {| store := delete (conn_sessionId conn) (store s);
               connections :=
                 <[c := {| conn_sessionId := conn_sessionId conn;
                           conn_ws :=
                             {| sent :=
                                  sent (conn_ws conn)
                                  ++ [MsgFinal fullText
                                        (JObj [("error", JStr "Invalid JSON from model");
                                               ("raw", JStr raw)])];
                                closed := true |} |}]>
                   (connections s);
               pending := delete k (pending s) |})
  ∧ (∀ s c sessionId sess w finish,
       session_at s c sessionId sess w →
       has_type finish "end" →
       run s [Message c finish;
              Responded (length (pending s)) (Fulfilled completion)]
       = Some {| store := delete sessionId (store s);
                 connections :=
                   <[c := {| conn_sessionId := sessionId;
                             conn_ws :=
                               {| sent :=
                                    sent w
                                    ++ [MsgFinal (trim (transcript sess))
                                          (JObj [("error", JStr "Invalid JSON from model");
                                                 ("raw", JStr raw)])];
                                  closed := true |} |}]>
                     (connections s);
                 pending := pending s |})
  ∧ (∀ transcribe respond buffer transcription,
       transcribe {| file := buffer; file_name := "audio.wav";
                     file_type := "audio/wav";
                     transcription_model := "whisper-1" |}
       = Fulfilled transcription →
       respond {| model := "gpt-4o-mini";
                  input := prompt "    " (text transcription);
                  temperature := "0.2" |}
       = Fulfilled completion →
       one_shot transcribe respond (Some buffer)
       = {| status := 200;
            body := BodyResult (text transcription)
                      (JObj [("error", JStr "Invalid JSON");
                             ("raw", JStr raw)]) |}).
Proof.
  intros Htext Hparse. split; [| split].
  - intros s k c request fullText conn Hk Hc.
    apply (step_responded s k c request fullText conn completion _ Hk Hc).
    by apply parse_or_fallback_malformed.
  - intros s c sessionId sess w finish [Hc Hsess] Hfinish.
    rewrite (run_cons _ _ _ _ (step_end s c _ sess finish Hc Hsess Hfinish)).
    rewrite run_one.
    erewrite step_responded;
      [| by apply list_lookup_middle | exact Hc
       | by apply parse_or_fallback_malformed].
    cbn [store connections pending conn_sessionId conn_ws sent closed].
    by rewrite delete_middle, app_nil_r.
  - intros transcribe respond buffer transcription Htr Hre.
    unfold one_shot, one_shot_try. rewrite Htr. simpl. rewrite Hre. simpl.
    by rewrite (parse_or_fallback_malformed _ _ raw Htext Hparse).
Qed.

(** C5, amended.  When the second [end] is handled after the first one's
    finalisation completed, one [final] message has been sent and the
    session deleted once; the second [end] then throws on reading the
    deleted session and is answered with an error message, nothing else
    changing. *)
Theorem second_end_after_finalize
    s c sessionId sess w finish1 finish2 completion summary :
  session_at s c sessionId sess w →
  has_type finish1 "end" →
  has_type finish2 "end" →
  parse_or_fallback "Invalid JSON from model" completion = Return summary →
  ∃ s1,
    run s [Message c finish1;
           Responded (length (pending s)) (Fulfilled completion)]
    = Some s1
    ∧ store s1 = delete sessionId (store s)
    ∧ pending s1 = pending s
    ∧ connections s1 !! c
      = Some {| conn_sessionId := sessionId;
                conn_ws :=
                  {| sent := sent w ++ [MsgFinal (trim (transcript sess)) summary];
                     closed := true |} |}
    ∧ step s1 (Message c finish2)
      = Some {| store := store s1;
                connections :=
                  <[c := {| conn_sessionId := sessionId;
                            conn_ws :=
                              {| sent :=
                                   (sent w
                                    ++ [MsgFinal (trim (transcript sess)) summary])
                                   ++ [MsgError (TypeError Undefined "transcript")];
                                 closed := true |} |}]>
                    (connections s1);
                pending := pending s1 |}.
Proof.
  intros [Hc Hsess] Hfinish1 Hfinish2 Hsummary.
  rewrite (run_cons _ _ _ _ (step_end s c _ sess finish1 Hc Hsess Hfinish1)).
  rewrite run_one.
  erewrite step_responded;
    [| by apply list_lookup_middle | exact Hc | exact Hsummary].
  cbn [store connections pending conn_sessionId conn_ws sent closed].
  eexists. split; [reflexivity |].
  cbn [store connections pending].
  assert (Hlt : c < length (connections s)) by (by eapply lookup_lt_Some).
  split; [reflexivity |]. split; [by rewrite delete_middle, app_nil_r |].
  split; [by apply list_lookup_insert_eq |].
  match goal with |- step ?x _ = _ => set (s1 := x) end.
  assert (Hc1 : connections s1 !! c
                = Some {| conn_sessionId := sessionId;
                          conn_ws :=
                            {| sent := sent w
                                       ++ [MsgFinal (trim (transcript sess)) summary];
                               closed := true |} |})
    by (by apply list_lookup_insert_eq).
  by rewrite (step_end_gone s1 c _ finish2 Hc1 (lookup_delete_eq _ _) Hfinish2).
Qed.

(** C6, amended.  When the transcription of a flush settles, the parked
    handler is gone and the session stays in the store, taking chunks as
    before.  On success the text is appended to the transcript after a
    space and sent as a partial transcript; on failure the transcript is
    left as it was, no marker is appended, and the client is sent an error
    message carrying the provider's message. *)
Theorem transcription_settled s k c unit sessionId sess w :
  pending s !! k = Some (flush_of c unit) →
  session_at s c sessionId sess w →
  (∀ transcription,
     step s (Transcribed k (Fulfilled transcription))
     = Some {| store :=
                 <[sessionId :=
                     {| chunks := chunks sess;
                        transcript :=
                          transcript sess +:+ " " +:+ text transcription |}]>
                   (store s);
               connections :=
                 <[c := {| conn_sessionId := sessionId;
                           conn_ws :=
                             {| sent := sent w
                                        ++ [MsgPartialTranscript (text transcription)];
                                closed := closed w |} |}]>
                   (connections s);
               pending := delete k (pending s) |})
  ∧ (∀ message,
       step s (Transcribed k (Rejected message))
       = Some {| store := store s;
                 connections :=
                   <[c := {| conn_sessionId := sessionId;
                             conn_ws :=
                               {| sent := sent w
                                          ++ [MsgError (ProviderError message)];
                                  closed := closed w |} |}]>
                     (connections s);
                 pending := delete k (pending s) |}).
Proof.
  intros Hk [Hc Hsess]. split.
  - intros transcription.
    apply (step_transcribed s k c _ _ sess transcription Hk Hc Hsess).
  - intros message.
    apply (step_transcription_failed s k c _ _ message Hk Hc).
Qed.

End Finalize.

Lemma malformed_output_never_aborts_finalize_witness :
  @step example_platform example_finalizing
    (Responded 0 (Fulfilled (response_of "not json")))
  = Some {| store := delete "s1" (store example_finalizing);
            connections :=
              [{| conn_sessionId := "s1";
                  conn_ws :=
                    {| sent :=
                         [MsgSession "s1";
                          MsgFinal ""
                            (JObj [("error", JStr "Invalid JSON from model");
                                   ("raw", JStr "not json")])];
                       closed := true |} |}];
            pending := [] |}
  ∧ @one_shot example_platform
      (λ _, Fulfilled {| text := "hi" |})
      (λ _, Fulfilled (response_of "not json"))
      (Some [Byte.x41])
    = {| status := 200;
         body := BodyResult "hi"
                   (JObj [("error", JStr "Invalid JSON");
                          ("raw", JStr "not json")]) |}.
Proof.
  destruct (@malformed_output_never_aborts_finalize example_platform
              (response_of "not json") "not json" eq_refl eq_refl)
    as (Hstream & _ & Hbatch).
  split.
  - exact (Hstream example_finalizing 0 0 example_final_request ""
             example_connection eq_refl eq_refl).
  - exact (Hbatch (λ _, Fulfilled {| text := "hi" |})
             (λ _, Fulfilled (response_of "not json"))
             [Byte.x41] {| text := "hi" |} eq_refl eq_refl).
Defined.

Lemma second_end_after_finalize_witness :
  ∃ s1,
    @run example_platform example_connected
      [Message 0 end_msg;
       Responded 0 (Fulfilled (response_of (render example_summary)))]
    = Some s1
    ∧ store s1 = delete "s1" (store example_connected)
    ∧ pending s1 = []
    ∧ connections s1 !! 0
      = Some {| conn_sessionId := "s1";
                conn_ws :=
                  {| sent := [MsgSession "s1"; MsgFinal "" example_summary];
                     closed := true |} |}
    ∧ @step example_platform s1 (Message 0 end_msg)
      = Some {| store := store s1;
                connections :=
                  <[0 := {| conn_sessionId := "s1";
                            conn_ws :=
                              {| sent :=
                                   [MsgSession "s1"; MsgFinal "" example_summary;
                                    MsgError (TypeError Undefined "transcript")];
                                 closed := true |} |}]>
                    (connections s1);
                pending := pending s1 |}.
Proof.
  apply (@second_end_after_finalize example_platform example_connected 0 "s1"
           example_session example_socket end_msg end_msg
           (response_of (render example_summary)) example_summary).
  - split; reflexivity.
  - apply (example_has_type end_payload); simpl; tauto.
  - apply (example_has_type end_payload); simpl; tauto.
  - reflexivity.
Defined.

(** C5 as stated fails when the second [end] is handled before the first
    one's completion settled: both handlers finish and two [final] messages
    are sent. *)
Lemma two_ends_in_flight_send_two_finals :
  connections
  <$> @run example_platform example_connected
        [Message 0 end_msg; Message 0 end_msg;
         Responded 0 (Fulfilled (response_of (render example_summary)));
         Responded 0 (Fulfilled (response_of (render example_summary)))]
  = Some [{| conn_sessionId := "s1";
             conn_ws :=
               {| sent :=
                    [MsgSession "s1"; MsgFinal "" example_summary;
                     MsgFinal "" example_summary];
                  closed := true |} |}].
Proof. vm_compute. reflexivity. Qed.

Lemma transcription_settled_witness :
  @step example_platform example_flushing
    (Transcribed 0 (Fulfilled {| text := "hello" |}))
  = Some {| store :=
              <["s1" := {| chunks := []; transcript := " hello" |}]>
                (store example_flushing);
            connections :=
              [{| conn_sessionId := "s1";
                  conn_ws :=
                    {| sent := [MsgSession "s1"; MsgPartialTranscript "hello"];
                       closed := false |} |}];
            pending := [] |}
  ∧ @step example_platform example_flushing (Transcribed 0 (Rejected "boom"))
    = Some {| store := store example_flushing;
              connections :=
                [{| conn_sessionId := "s1";
                    conn_ws :=
                      {| sent := [MsgSession "s1";
                                  MsgError (ProviderError "boom")];
                         closed := false |} |}];
              pending := [] |}.
Proof.
  destruct (@transcription_settled example_platform example_flushing 0 0 "QQ=="
              "s1" example_session example_socket eq_refl
              (conj eq_refl eq_refl))
    as [Hfulfilled Hrejected].
  split.
  - exact (Hfulfilled {| text := "hello" |}).
  - exact (Hrejected "boom").
Defined.

(** C6 as stated fails: a transcription that fails leaves nothing in the
    transcript.  The client is sent an error message, and the [final]
    message that follows has an empty transcript. *)
Lemma failed_transcription_leaves_no_marker :
  (λ s, (store s !! "s1", connections s))
  <$> @run example_platform example_connected
        [Message 0 (audioChunk_msg "QQ=="); Message 0 chunkEnd_msg;
         Transcribed 0 (Rejected "boom")]
  = Some (Some {| chunks := []; transcript := "" |},
          [{| conn_sessionId := "s1";
              conn_ws :=
                {| sent := [MsgSession "s1"; MsgError (ProviderError "boom")];
                   closed := false |} |}])
  ∧ connections
    <$> @run example_platform example_connected
          [Message 0 (audioChunk_msg "QQ=="); Message 0 chunkEnd_msg;
           Transcribed 0 (Rejected "boom"); Message 0 end_msg;
           Responded 0 (Fulfilled (response_of (render example_summary)))]
    = Some [{| conn_sessionId := "s1";
               conn_ws :=
                 {| sent := [MsgSession "s1"; MsgError (ProviderError "boom");
                             MsgFinal "" example_summary];
                    closed := true |} |}].
Proof. split; vm_compute; reflexivity. Qed.

(** ** The session store *)

Section Store.
Context `{Platform}.

Lemma try_catch_sessions {A : Type} (body : handler A) h :
  sessions (try_catch body h).2 = sessions (body h).2.
Proof. unfold try_catch. by destruct (body h) as [[a | e] h']. Qed.

(** A message handler writes to the store through the reference
    [sessions.get(sessionId)] only. *)
Lemma on_message_sessions sessionId msg h :
  sessions (on_message sessionId msg h).2 = sessions h
  ∨ ∃ sess sess',
      sessions h !! sessionId = Some sess
      ∧ sessions (on_message sessionId msg h).2
        = <[sessionId := sess']> (sessions h).
Proof.
  unfold on_message, type_is, lift, sessions_get, sessions_put,
    JSON_parse_or_throw, mbind, handler_bind, mret, handler_ret.
  destruct (JSON_parse msg) as [payload |]; [| by left].
  destruct (prop payload "type") as [type | e]; [| by left]. simpl.
  destruct (prop payload "data") as [data | e];
    destruct (strict_eq type "audioChunk"), (strict_eq type "chunkEnd"),
      (strict_eq type "end");
    simpl; destruct (sessions h !! sessionId) as [sess |] eqn:Hsess; simpl;
    rewrite ?lookup_insert_eq; simpl; rewrite ?Hsess; simpl;
    try (destruct (join _); simpl);
    rewrite ?insert_insert_eq; eauto.
Qed.

Lemma after_transcription_sessions sessionId r h :
  sessions (after_transcription sessionId r h).2 = sessions h
  ∨ ∃ sess sess',
      sessions h !! sessionId = Some sess
      ∧ sessions (after_transcription sessionId r h).2
        = <[sessionId := sess']> (sessions h).
Proof.
  unfold after_transcription, await, lift, sessions_get, sessions_put, ws_send,
    mbind, handler_bind.
  destruct r as [transcription | message]; simpl; [| by left].
  destruct (sessions h !! sessionId) as [sess |] eqn:Hsess; simpl; eauto.
Qed.

Lemma after_response_sessions sessionId fullText r h :
  sessions (after_response sessionId fullText r h).2 = sessions h
  ∨ (∃ completion, r = Fulfilled completion)
    ∧ sessions (after_response sessionId fullText r h).2
      = delete sessionId (sessions h).
Proof.
  unfold after_response, await, lift, sessions_delete, ws_send, ws_close,
    mbind, handler_bind.
  destruct r as [completion | message]; simpl; [| by left].
  destruct (parse_or_fallback _ completion); simpl; eauto.
Qed.

(** What one turn of the event loop can do to the store. *)
Lemma step_store s ev s' :
  step s ev = Some s' →
  store s' = store s
  ∨ (∃ uuid, ev = Connect uuid
             ∧ store s' = <[uuid := {| chunks := []; transcript := "" |}]> (store s))
  ∨ (∃ sessionId sess sess',
       store s !! sessionId = Some sess
       ∧ store s' = <[sessionId := sess']> (store s))
  ∨ (∃ sessionId, finalizes s ev sessionId
                  ∧ store s' = delete sessionId (store s)).
Proof.
  destruct ev as [uuid | c msg | k r | k r | c]; simpl.
  - intros [= <-]. right. left. by exists uuid.
  - destruct (connections s !! c) as [conn |] eqn:Hc; [| done]. simpl.
    destruct (try_catch _ _) as [r h] eqn:Htry. intros [= <-]. simpl.
    assert (Hh : sessions h = sessions (try_catch (on_message (conn_sessionId conn) msg)
                                          (heap_of s conn)).2)
      by (by rewrite Htry).
    rewrite try_catch_sessions in Hh. rewrite Hh.
    destruct (on_message_sessions (conn_sessionId conn) msg (heap_of s conn))
      as [-> | (sess & sess' & Hsess & ->)]; [by left |].
    right. right. left. by exists (conn_sessionId conn), sess, sess'.
  - destruct (pending s !! k) as [task |] eqn:Hk; [| done]. simpl.
    destruct (connections s !! task_conn task) as [conn |] eqn:Hc; [| done].
    simpl. destruct (task_awaiting task); [| done].
    destruct (try_catch _ _) as [r' h] eqn:Htry. intros [= <-]. simpl.
    assert (Hh : sessions h
                 = sessions (try_catch (after_transcription (conn_sessionId conn) r)
                               (heap_of s conn)).2)
      by (by rewrite Htry).
    rewrite try_catch_sessions in Hh. rewrite Hh.
    destruct (after_transcription_sessions (conn_sessionId conn) r (heap_of s conn))
      as [-> | (sess & sess' & Hsess & ->)]; [by left |].
    right. right. left. by exists (conn_sessionId conn), sess, sess'.
  - destruct (pending s !! k) as [task |] eqn:Hk; [| done]. simpl.
    destruct (connections s !! task_conn task) as [conn |] eqn:Hc; [| done].
    simpl. destruct (task_awaiting task) as [| request fullText]; [done |].
    destruct (try_catch _ _) as [r' h] eqn:Htry. intros [= <-]. simpl.
    assert (Hh : sessions h
                 = sessions (try_catch
                               (after_response (conn_sessionId conn) fullText r)
                               (heap_of s conn)).2)
      by (by rewrite Htry).
    rewrite try_catch_sessions in Hh. rewrite Hh.
    destruct (after_response_sessions (conn_sessionId conn) fullText r
                (heap_of s conn))
      as [-> | [[completion ->] ->]]; [by left |].
    right. right. right. exists (conn_sessionId conn).
    split; [| done]. by exists k, completion, task, conn.
  - destruct (connections s !! c) as [conn |]; [| done]. simpl.
    intros [= <-]. by left.
Qed.

(** A session identifier absent from the store stays absent unless
    [uuid()] returns it to a new connection. *)
Lemma step_absent s ev s' sessionId :
  step s ev = Some s' →
  store s !! sessionId = None →
  ev ≠ Connect sessionId →
  store s' !! sessionId = None.
Proof.
  intros Hstep Hnone Hev.
  destruct (step_store s ev s' Hstep)
    as [-> | [(uuid & -> & ->) | [(sid & sess & sess' & Hsess & ->)
                                  | (sid & _ & ->)]]].
  - done.
  - rewrite lookup_insert_ne; [done | congruence].
  - rewrite lookup_insert_ne; [done | congruence].
  - destruct (decide (sid = sessionId)) as [-> |].
    + apply lookup_delete_eq.
    + by rewrite lookup_delete_ne.
Qed.

Lemma run_absent evs : ∀ s s' sessionId,
  run s evs = Some s' →
  store s !! sessionId = None →
  sessionId ∉ created evs →
  store s' !! sessionId = None.
Proof.
  induction evs as [|ev evs IH]; intros s s' sessionId Hrun Hnone Hfresh.
  - by injection Hrun as <-.
  - simpl in Hrun. destruct (step s ev) as [s1 |] eqn:Hstep; [| done].
    simpl in Hrun. apply (IH s1 s' sessionId Hrun).
    + apply (step_absent s ev s1 sessionId Hstep Hnone).
      intros ->. apply Hfresh. simpl. apply list_elem_of_here.
    + intros Hin. apply Hfresh. destruct ev; simpl; try done.
      by apply list_elem_of_further.
Qed.

(** C9.  [sessions.get] gives [undefined] for every identifier that was
    never created, and for every identifier whose session was deleted by a
    finalisation, through every later run of events that does not create it
    again; more generally an identifier absent from the store stays
    absent. *)
Theorem get_NotFound sessionId evs :
  sessionId ∉ created evs →
  (∀ s', run initial evs = Some s' → store s' !! sessionId = None)
  ∧ (∀ s k c request fullText conn completion summary s',
       pending s !! k
       = Some {| task_conn := c; task_awaiting := AwaitResponse request fullText |} →
       connections s !! c = Some conn →
       conn_sessionId conn = sessionId →
       parse_or_fallback "Invalid JSON from model" completion = Return summary →
       run s (Responded k (Fulfilled completion) :: evs) = Some s' →
       store s' !! sessionId = None)
  ∧ (∀ s s', store s !! sessionId = None →
             run s evs = Some s' →
             store s' !! sessionId = None).
Proof.
  intros Hfresh. split; [| split].
  - intros s' Hrun. by apply (run_absent evs initial s' sessionId Hrun).
  - intros s k c request fullText conn completion summary s' Hk Hc <- Hsum Hrun.
    rewrite (run_cons _ _ _ _ (step_responded s k c request fullText conn
                                 completion summary Hk Hc Hsum)) in Hrun.
    apply (run_absent evs _ s' _ Hrun); [apply lookup_delete_eq | exact Hfresh].
  - intros s s' Hnone Hrun. by apply (run_absent evs s s' sessionId Hrun).
Qed.

End Store.

(** ** The lifetime of a session *)

Section Lifetime.
Context `{Platform}.

Lemma step_keeps_session s ev s' sessionId :
  step s ev = Some s' →
  is_Some (store s !! sessionId) →
  store s' !! sessionId = None →
  finalizes s ev sessionId.
Proof.
  intros Hstep [sess0 Hsome] Hnone.
  destruct (step_store s ev s' Hstep)
    as [Heq | [(uuid & -> & Heq) | [(sid & sess & sess' & Hsess & Heq)
                                    | (sid & Hfin & Heq)]]];
    rewrite Heq in Hnone.
  - congruence.
  - destruct (decide (uuid = sessionId)) as [-> |].
    + by rewrite lookup_insert_eq in Hnone.
    + rewrite lookup_insert_ne in Hnone by done. congruence.
  - destruct (decide (sid = sessionId)) as [-> |].
    + by rewrite lookup_insert_eq in Hnone.
    + rewrite lookup_insert_ne in Hnone by done. congruence.
  - destruct (decide (sid = sessionId)) as [-> |]; [done |].
    rewrite lookup_delete_ne in Hnone by done. congruence.
Qed.

Lemma run_keeps_session evs : ∀ s s' sessionId,
  no_response evs = true →
  run s evs = Some s' →
  is_Some (store s !! sessionId) →
  is_Some (store s' !! sessionId).
Proof.
  induction evs as [|ev evs IH]; intros s s' sessionId Hno Hrun Hsome.
  - by injection Hrun as <-.
  - simpl in Hrun. destruct (step s ev) as [s1 |] eqn:Hstep; [| done].
    simpl in Hrun.
    assert (Hno' : no_response evs = true) by (by destruct ev).
    apply (IH s1 s' sessionId Hno' Hrun).
    destruct (store s1 !! sessionId) as [sess |] eqn:Hs1; [by eexists |].
    destruct (step_keeps_session s ev s1 sessionId Hstep Hsome Hs1)
      as (k & completion & task & conn & -> & _).
    discriminate Hno.
Qed.

(** C8, amended.  A session is destroyed when its finalisation completes,
    and by nothing else: there is no idle timeout.  A step that removes a
    session from the store is the settling of a finalisation of that
    session; through every run of events in which no finalisation settles,
    as when the client never sends [end] or goes away, every session stays
    in the store; and every connection with a fresh identifier makes the
    store one session larger. *)
Theorem session_lifetime sessionId :
  (∀ s k c request fullText conn completion summary,
     pending s !! k
     = Some {| task_conn := c; task_awaiting := AwaitResponse request fullText |} →
     connections s !! c = Some conn →
     conn_sessionId conn = sessionId →
     parse_or_fallback "Invalid JSON from model" completion = Return summary →
     ∃ s', step s (Responded k (Fulfilled completion)) = Some s'
           ∧ store s' !! sessionId = None)
  ∧ (∀ s ev s',
       step s ev = Some s' →
       is_Some (store s !! sessionId) →
       store s' !! sessionId = None →
       finalizes s ev sessionId)
  ∧ (∀ s evs s',
       no_response evs = true →
       run s evs = Some s' →
       is_Some (store s !! sessionId) →
       is_Some (store s' !! sessionId))
  ∧ (∀ s s',
       store s !! sessionId = None →
       step s (Connect sessionId) = Some s' →
       size (store s') = S (size (store s))).
Proof.
  split; [| split; [| split]].
  - intros s k c request fullText conn completion summary Hk Hc <- Hsum.
    rewrite (step_responded s k c request fullText conn completion summary
               Hk Hc Hsum).
    eexists. split; [reflexivity |]. apply lookup_delete_eq.
  - intros s ev s'. apply step_keeps_session.
  - intros s evs s'. apply run_keeps_session.
  - intros s s' Hnone [= <-]. simpl. by apply map_size_insert_None.
Qed.

End Lifetime.

(** ** Messages of another type *)

Section OtherMessages.
Context `{Platform}.

(** C10, amended.  A message that parses to a value other than [null] and
    whose [type] is none of [audioChunk], [chunkEnd] and [end] is ignored:
    the whole server state, with the session's buffer and transcript, the
    store and what was sent on the socket, is unchanged. *)
Theorem unknown_type_ignored s c conn msg payload :
  connections s !! c = Some conn →
  JSON_parse msg = Some payload →
  payload ≠ JNull →
  other_type payload →
  step s (Message c msg) = Some s.
Proof.
  intros Hc Hparse Hnull (Hchunk & Hflush & Hend).
  assert (Hstrict : ∀ v t, strict_eq v t = true → v = Some (JStr t)).
  { intros [[| | | t' | |] |] t; simpl; try done.
    by intros ->%String.eqb_eq. }
  assert (∃ v, prop payload "type" = Return v) as [v Hv]
    by (destruct payload; simpl; by eauto).
  assert (Hnot : ∀ t, prop payload "type" ≠ Return (Some (JStr t)) →
                      strict_eq v t = false).
  { intros t Hne. destruct (strict_eq v t) eqn:Heq; [| done].
    apply Hstrict in Heq as ->. exfalso. by apply Hne. }
  unfold step. rewrite Hc. simpl.
  unfold try_catch, on_message, type_is, lift, JSON_parse_or_throw,
    mbind, handler_bind, mret, handler_ret.
  rewrite Hparse, Hv. simpl.
  rewrite (Hnot _ Hchunk), (Hnot _ Hflush), (Hnot _ Hend). simpl.
  unfold commit. simpl. rewrite same_connection, app_nil_r by done.
  by destruct s.
Qed.

End OtherMessages.

(** ** The one-shot endpoint *)

Section Batch.
Context `{Platform}.

(** C7, amended.  The one-shot endpoint answers 400 with [No audio] exactly
    when no file is attached; an attached file, empty or not, goes to the
    provider.  It answers 500 with the provider's message when either call
    is rejected, and 200 with the transcript and the summary (parsed, or
    the fallback) when both succeed and the response has an output text
    to read. *)
Theorem one_shot_outcomes transcribe respond req_file :
  (status (one_shot transcribe respond req_file) = 400 ↔ req_file = None)
  ∧ (req_file = None →
     one_shot transcribe respond req_file
     = {| status := 400; body := BodyError (Literal "No audio") |})
  ∧ (∀ buffer message,
       req_file = Some buffer →
       transcribe {| file := buffer; file_name := "audio.wav";
                     file_type := "audio/wav";
                     transcription_model := "whisper-1" |}
       = Rejected message →
       one_shot transcribe respond req_file
       = {| status := 500;
            body := BodyError (MessageOf (ProviderError message)) |})
  ∧ (∀ buffer transcription message,
       req_file = Some buffer →
       transcribe {| file := buffer; file_name := "audio.wav";
                     file_type := "audio/wav";
                     transcription_model := "whisper-1" |}
       = Fulfilled transcription →
       respond {| model := "gpt-4o-mini";
                  input := prompt "    " (text transcription);
                  temperature := "0.2" |}
       = Rejected message →
       one_shot transcribe respond req_file
       = {| status := 500;
            body := BodyError (MessageOf (ProviderError message)) |})
  ∧ (∀ buffer transcription completion x,
       req_file = Some buffer →
       transcribe {| file := buffer; file_name := "audio.wav";
                     file_type := "audio/wav";
                     transcription_model := "whisper-1" |}
       = Fulfilled transcription →
       respond {| model := "gpt-4o-mini";
                  input := prompt "    " (text transcription);
                  temperature := "0.2" |}
       = Fulfilled completion →
       output_text completion = Return x →
       one_shot transcribe respond req_file
       = {| status := 200;
            body := BodyResult (text transcription)
                      match JSON_parse (text_argument x) with
                      | Some summary => summary
                      | None => fallback "Invalid JSON" x
                      end |}).
Proof.
  split; [| split; [| split; [| split]]].
  - split.
    + destruct req_file as [buffer |]; [| done].
      unfold one_shot, one_shot_try.
      destruct (transcribe _) as [transcription | message]; simpl; [| done].
      destruct (respond _) as [completion | message]; simpl; [| done].
      by destruct (parse_or_fallback _ completion).
    + by intros ->.
  - by intros ->.
  - intros buffer message -> Htr. unfold one_shot, one_shot_try.
    by rewrite Htr.
  - intros buffer transcription message -> Htr Hre.
    unfold one_shot, one_shot_try. rewrite Htr. simpl. by rewrite Hre.
  - intros buffer transcription completion x -> Htr Hre Htext.
    unfold one_shot, one_shot_try. rewrite Htr. simpl. rewrite Hre. simpl.
    unfold parse_or_fallback, JSON_parse_or_throw. rewrite Htext.
    by destruct (JSON_parse (text_argument x)).
Qed.

End Batch.

(** C7 as stated fails on an empty file: it is attached, so the endpoint
    does not answer 400.  It answers 200 when the providers accept it and
    500 when the transcription provider rejects it. *)
Lemma one_shot_empty_file_is_not_an_upload_error :
  @one_shot example_platform
    (λ _, Fulfilled {| text := "" |})
    (λ _, Fulfilled (response_of (render example_summary)))
    (Some [])
  = {| status := 200; body := BodyResult "" example_summary |}
  ∧ @one_shot example_platform
      (λ _, Rejected "empty audio")
      (λ _, Fulfilled (response_of (render example_summary)))
      (Some [])
    = {| status := 500;
         body := BodyError (MessageOf (ProviderError "empty audio")) |}.
Proof. split; reflexivity. Qed.

Lemma get_NotFound_witness :
  ∃ s',
    @run example_platform initial
      [Connect "s1"; Message 0 (audioChunk_msg "QQ=="); Hangup 0]
    = Some s'
    ∧ store s' !! "s2" = None.
Proof.
  eexists. split; [reflexivity |].
  apply (@get_NotFound example_platform "s2"
           [Connect "s1"; Message 0 (audioChunk_msg "QQ=="); Hangup 0]).
  - unfold created. intros [[=] | []%elem_of_nil]%elem_of_cons.
  - reflexivity.
Defined.

Lemma session_lifetime_witness :
  ∃ s',
    @step example_platform example_finalizing
      (Responded 0 (Fulfilled (response_of (render example_summary))))
    = Some s'
    ∧ store s' !! "s1" = None.
Proof.
  apply (@session_lifetime example_platform "s1")
    with (request := example_final_request) (fullText := "")
         (c := 0) (conn := example_connection) (summary := example_summary);
    reflexivity.
Defined.

(** C8 as stated fails: no timer runs in the server.  A client that
    connects, sends a chunk and goes away leaves its session in the store,
    with its buffer, and no handler parked that could remove it; the
    session is still there after every run of events in which no
    finalisation settles. *)
Lemma abandoned_session_stays :
  (λ s, (store s !! "s1", pending s))
  <$> @run example_platform initial
        [Connect "s1"; Message 0 (audioChunk_msg "QQ=="); Hangup 0]
  = Some (Some {| chunks := [Some (JStr "QQ==")]; transcript := "" |}, [])
  ∧ ∀ evs s',
      no_response evs = true →
      @run example_platform initial
        ([Connect "s1"; Message 0 (audioChunk_msg "QQ=="); Hangup 0] ++ evs)
      = Some s' →
      is_Some (store s' !! "s1").
Proof.
  split; [vm_compute; reflexivity |].
  intros evs s' Hno Hrun. rewrite run_app in Hrun.
  destruct (@run example_platform initial
              [Connect "s1"; Message 0 (audioChunk_msg "QQ=="); Hangup 0])
    as [s |] eqn:Hprefix; [| discriminate].
  apply (@run_keeps_session example_platform evs s s' "s1" Hno Hrun).
  revert Hprefix. vm_compute. intros [= <-]. by eexists.
Qed.

Lemma unknown_type_ignored_witness :
  @step example_platform example_buffered (Message 0 (render ping_payload))
  = Some example_buffered.
Proof.
  apply (@unknown_type_ignored example_platform example_buffered 0
           example_connection (render ping_payload) ping_payload).
  - reflexivity.
  - reflexivity.
  - discriminate.
  - repeat split; discriminate.
Defined.

(** C10 as stated fails on the message [null]: it parses, its [type] is
    none of the three, and reading [payload.type] throws, so the client is
    sent an error message. *)
Lemma null_message_is_answered :
  @JSON_parse example_platform "null" = Some JNull
  ∧ other_type JNull
  ∧ @step example_platform example_buffered (Message 0 "null")
    = Some {| store := store example_buffered;
              connections :=
                [{| conn_sessionId := "s1";
                    conn_ws :=
                      {| sent := [MsgSession "s1";
                                  MsgError (TypeError Null "type")];
                         closed := false |} |}];
              pending := [] |}.
Proof. split; [reflexivity |]. split; [repeat split; discriminate | reflexivity]. Qed.

Lemma one_shot_outcomes_witness :
  @one_shot example_platform
    (λ _, Fulfilled {| text := "hi" |})
    (λ _, Fulfilled (response_of (render example_summary)))
    None
  = {| status := 400; body := BodyError (Literal "No audio") |}
  ∧ @one_shot example_platform
      (λ _, Fulfilled {| text := "hi" |})
      (λ _, Rejected "quota exceeded")
      (Some [Byte.x41])
    = {| status := 500;
         body := BodyError (MessageOf (ProviderError "quota exceeded")) |}
  ∧ @one_shot example_platform
      (λ _, Fulfilled {| text := "hi" |})
      (λ _, Fulfilled (response_of (render example_summary)))
      (Some [Byte.x41])
    = {| status := 200; body := BodyResult "hi" example_summary |}.
Proof.
  split; [| split].
  - apply (@one_shot_outcomes example_platform). reflexivity.
  - eapply (@one_shot_outcomes example_platform); reflexivity.
  - exact (proj2 (proj2 (proj2 (proj2
             (@one_shot_outcomes example_platform
                (λ _, Fulfilled {| text := "hi" |})
                (λ _, Fulfilled (response_of (render example_summary)))
                (Some [Byte.x41])))))
             [Byte.x41] {| text := "hi" |}
             (response_of (render example_summary))
             (Some (render example_summary))
             eq_refl eq_refl eq_refl eq_refl).
Defined.

(** * Further properties of the handlers *)

(** ** What a handler sends *)

Section Replies.
Context `{Platform}.

Lemma try_catch_spec {A : Type} (body : handler A) h :
  (∃ a, (body h).1 = Return a ∧ try_catch body h = (Some a, (body h).2))
  ∨ (∃ e, (body h).1 = Throw e
          ∧ try_catch body h
            = (None,
               {| sessions := sessions (body h).2;
                  ws := {| sent := sent (ws (body h).2) ++ [MsgError e];
                           closed := closed (ws (body h).2) |} |})).
Proof.
  unfold try_catch. destruct (body h) as [[a | e] h']; simpl; eauto.
Qed.

(** The part of the handler before its [await] sends nothing. *)
Lemma on_message_ws sessionId msg h :
  ws (on_message sessionId msg h).2 = ws h.
Proof.
  unfold on_message, type_is, lift, sessions_get, sessions_put,
    JSON_parse_or_throw, mbind, handler_bind, mret, handler_ret.
  destruct (JSON_parse msg) as [payload |]; [| done].
  destruct (prop payload "type") as [type | e]; [| done]. simpl.
  destruct (prop payload "data") as [data | e];
    destruct (strict_eq type "audioChunk"), (strict_eq type "chunkEnd"),
      (strict_eq type "end");
    simpl; destruct (sessions h !! sessionId) as [sess |] eqn:Hsess; simpl;
    rewrite ?lookup_insert_eq; simpl; rewrite ?Hsess; simpl;
    try (destruct (join _); simpl); done.
Qed.

Lemma after_transcription_ws sessionId r h :
  match after_transcription sessionId r h with
  | (Return _, h') =>
      ∃ t, ws h' = {| sent := sent (ws h) ++ [MsgPartialTranscript t];
                      closed := closed (ws h) |}
  | (Throw _, h') => ws h' = ws h
  end.
Proof.
  unfold after_transcription, await, lift, sessions_get, sessions_put, ws_send,
    mbind, handler_bind.
  destruct r as [transcription | message]; simpl; [| done].
  destruct (sessions h !! sessionId) as [sess |]; simpl; eauto.
Qed.

Lemma after_response_ws sessionId fullText r h :
  match after_response sessionId fullText r h with
  | (Return _, h') =>
      ∃ summary, ws h' = {| sent := sent (ws h) ++ [MsgFinal fullText summary];
                            closed := true |}
  | (Throw _, h') => ws h' = ws h
  end.
Proof.
  unfold after_response, await, lift, sessions_delete, ws_send, ws_close,
    mbind, handler_bind.
  destruct r as [completion | message]; simpl; [| done].
  destruct (parse_or_fallback _ completion); simpl; eauto.
Qed.

(** Every event but a connection runs the handler of one existing
    connection. *)
Lemma step_subject s ev s' :
  step s ev = Some s' →
  (∃ uuid, ev = Connect uuid)
  ∨ ∃ c conn, event_connection s ev = Some c ∧ connections s !! c = Some conn.
Proof.
  destruct ev as [uuid | c msg | k r | k r | c]; simpl; [by eauto | ..].
  - destruct (connections s !! c) as [conn |] eqn:Hc; [by eauto | done].
  - destruct (pending s !! k) as [task |]; [| done]. simpl.
    destruct (connections s !! task_conn task) as [conn |] eqn:Hc;
      [by eauto | done].
  - destruct (pending s !! k) as [task |]; [| done]. simpl.
    destruct (connections s !! task_conn task) as [conn |] eqn:Hc;
      [by eauto | done].
  - destruct (connections s !! c) as [conn |] eqn:Hc; [by eauto | done].
Qed.

(** What an event does to the socket of its connection. *)
Lemma step_socket s ev s' c conn :
  step s ev = Some s' →
  event_connection s ev = Some c →
  connections s !! c = Some conn →
  ∃ w,
    connections s'
    = <[c := {| conn_sessionId := conn_sessionId conn; conn_ws := w |}]>
        (connections s)
    ∧ answers ev (conn_ws conn) w.
Proof.
  destruct ev as [uuid | c0 msg | k r | k r | c0]; simpl; [done | ..].
  - intros Hstep [= ->]  Hc. rewrite Hc in Hstep. simpl in Hstep.
    destruct (try_catch _ _) as [res h] eqn:Htry. injection Hstep as <-.
    exists (ws h). split; [reflexivity |].
    destruct (try_catch_spec (on_message (conn_sessionId conn) msg)
                (heap_of s conn)) as [(a & _ & Heq) | (e & _ & Heq)];
      rewrite Heq in Htry; injection Htry as <- <-; simpl;
      rewrite on_message_ws; simpl; [by left | right; by exists e].
  - destruct (pending s !! k) as [task |] eqn:Hk; [| done]. simpl.
    intros Hstep [= <-] Hc. rewrite Hc in Hstep. simpl in Hstep.
    destruct (task_awaiting task); [| done].
    destruct (try_catch _ _) as [res h] eqn:Htry. injection Hstep as <-.
    exists (ws h). split; [reflexivity |].
    assert (Hws := after_transcription_ws (conn_sessionId conn) r (heap_of s conn)).
    destruct (try_catch_spec (after_transcription (conn_sessionId conn) r)
                (heap_of s conn)) as [(a & Hret & Heq) | (e & Hret & Heq)];
      rewrite Heq in Htry; injection Htry as <- <-; simpl;
      destruct (after_transcription _ _ _) as [[a' | e'] h']; simpl in *;
      try discriminate.
    + left. destruct Hws as [t ->]. by exists t.
    + right. exists e. by rewrite Hws.
  - destruct (pending s !! k) as [task |] eqn:Hk; [| done]. simpl.
    intros Hstep [= <-] Hc. rewrite Hc in Hstep. simpl in Hstep.
    destruct (task_awaiting task) as [| request fullText]; [done |].
    destruct (try_catch _ _) as [res h] eqn:Htry. injection Hstep as <-.
    exists (ws h). split; [reflexivity |].
    assert (Hws := after_response_ws (conn_sessionId conn) fullText r
                     (heap_of s conn)).
    destruct (try_catch_spec (after_response (conn_sessionId conn) fullText r)
                (heap_of s conn)) as [(a & Hret & Heq) | (e & Hret & Heq)];
      rewrite Heq in Htry; injection Htry as <- <-; simpl;
      destruct (after_response _ _ _ _) as [[a' | e'] h']; simpl in *;
      try discriminate.
    + left. destruct Hws as [summary ->]. by exists fullText, summary.
    + right. exists e. by rewrite Hws.
  - intros Hstep [= ->] Hc. rewrite Hc in Hstep. simpl in Hstep.
    injection Hstep as <-. eexists. split; reflexivity.
Qed.

(** X1.  An event changes the socket of its own connection only, and there
    it sends at most one message: a message is answered by nothing or by
    one error; a settled transcription by one partial transcript or one
    error; a settled summarisation by one final message, closing the
    socket, or by one error, leaving it as it was. *)
Theorem one_reply_per_event s ev s' c conn :
  step s ev = Some s' →
  event_connection s ev = Some c →
  connections s !! c = Some conn →
  (∃ conn',
     connections s' !! c = Some conn'
     ∧ conn_sessionId conn' = conn_sessionId conn
     ∧ answers ev (conn_ws conn) (conn_ws conn'))
  ∧ (∀ c', c' ≠ c → connections s' !! c' = connections s !! c')
  ∧ length (connections s') = length (connections s).
Proof.
  intros Hstep Hev Hc.
  destruct (step_socket s ev s' c conn Hstep Hev Hc) as (w & -> & Hw).
  split; [| split].
  - exists {| conn_sessionId := conn_sessionId conn; conn_ws := w |}.
    split; [| by split].
    apply list_lookup_insert_eq. by eapply lookup_lt_Some.
  - intros c' Hne. by apply list_lookup_insert_ne.
  - apply length_insert.
Qed.

(** X2.  An event reads and writes one session only: the one whose
    identifier its connection captured, or, for a new connection, the one
    [uuid()] returned.  Every other session in the store is untouched. *)
Theorem other_sessions_untouched s ev s' sessionId :
  step s ev = Some s' →
  event_session s ev = Some sessionId →
  ∀ other, other ≠ sessionId → store s' !! other = store s !! other.
Proof.
  intros Hstep Hev other Hne. revert Hstep Hev.
  destruct ev as [uuid | c msg | k r | k r | c]; simpl.
  - intros [= <-] [= <-]. simpl. by apply lookup_insert_ne.
  - destruct (connections s !! c) as [conn |] eqn:Hc; [| done]. simpl.
    destruct (try_catch _ _) as [res h] eqn:Htry. intros [= <-] [= <-]. simpl.
    assert (Hh : sessions h
                 = sessions (try_catch (on_message (conn_sessionId conn) msg)
                               (heap_of s conn)).2) by (by rewrite Htry).
    rewrite try_catch_sessions in Hh. rewrite Hh.
    destruct (on_message_sessions (conn_sessionId conn) msg (heap_of s conn))
      as [-> | (sess & sess' & _ & ->)]; [done |].
    by apply lookup_insert_ne.
  - destruct (pending s !! k) as [task |] eqn:Hk; [| done]. simpl.
    destruct (connections s !! task_conn task) as [conn |] eqn:Hc; [| done].
    simpl. destruct (task_awaiting task); [| done].
    destruct (try_catch _ _) as [res h] eqn:Htry. intros [= <-] [= <-]. simpl.
    assert (Hh : sessions h
                 = sessions (try_catch
                               (after_transcription (conn_sessionId conn) r)
                               (heap_of s conn)).2) by (by rewrite Htry).
    rewrite try_catch_sessions in Hh. rewrite Hh.
    destruct (after_transcription_sessions (conn_sessionId conn) r
                (heap_of s conn)) as [-> | (sess & sess' & _ & ->)]; [done |].
    by apply lookup_insert_ne.
  - destruct (pending s !! k) as [task |] eqn:Hk; [| done]. simpl.
    destruct (connections s !! task_conn task) as [conn |] eqn:Hc; [| done].
    simpl. destruct (task_awaiting task) as [| request fullText]; [done |].
    destruct (try_catch _ _) as [res h] eqn:Htry. intros [= <-] [= <-]. simpl.
    assert (Hh : sessions h
                 = sessions (try_catch
                               (after_response (conn_sessionId conn) fullText r)
                               (heap_of s conn)).2) by (by rewrite Htry).
    rewrite try_catch_sessions in Hh. rewrite Hh.
    destruct (after_response_sessions (conn_sessionId conn) fullText r
                (heap_of s conn)) as [-> | [_ ->]]; [done |].
    by apply lookup_delete_ne.
  - destruct (connections s !! c) as [conn |]; [| done]. simpl.
    by intros [= <-] _.
Qed.

End Replies.

(** ** The history of a socket *)

Section Sockets.
Context `{Platform}.

Lemma run_invariant (P : Server → Prop) :
  (∀ s ev s', P s → step s ev = Some s' → P s') →
  ∀ evs s s', P s → run s evs = Some s' → P s'.
Proof.
  intros Hstep. induction evs as [|ev evs IH]; intros s s' HP Hrun.
  - by injection Hrun as <-.
  - simpl in Hrun. destruct (step s ev) as [s1 |] eqn:Hs1; [| done].
    simpl in Hrun. by apply (IH s1 s' (Hstep s ev s1 HP Hs1)).
Qed.

(** What is sent in answer to an event: no [session] message, and a
    [final] message only on a socket that is closed by the same step. *)
Lemma answers_shape ev w w' :
  answers ev w w' →
  ∃ msgs,
    sent w' = sent w ++ msgs
    ∧ Forall (λ m, is_session m = false) msgs
    ∧ (closed w = true → closed w' = true)
    ∧ (Exists (λ m, is_final m = true) msgs → closed w' = true).
Proof.
  assert (Hnil : ¬ Exists (λ m, is_final m = true) []) by (by intros ?%Exists_nil).
  assert (Hone : ∀ m, is_final m = false →
                      ¬ Exists (λ m, is_final m = true) [m]).
  { intros m Hm [Hm' | ?%Exists_nil]%Exists_cons; [congruence | done]. }
  destruct ev as [uuid | c msg | k r | k r | c]; simpl; [done | ..].
  - intros [-> | [e ->]].
    + exists []. rewrite app_nil_r. by repeat split.
    + exists [MsgError e]. repeat split; simpl; auto.
      intros []%Hone. reflexivity.
  - intros [[t ->] | [e ->]].
    + exists [MsgPartialTranscript t]. repeat split; simpl; auto.
      intros []%Hone. reflexivity.
    + exists [MsgError e]. repeat split; simpl; auto.
      intros []%Hone. reflexivity.
  - intros [(fullText & summary & ->) | [e ->]].
    + exists [MsgFinal fullText summary]. repeat split; simpl; auto.
    + exists [MsgError e]. repeat split; simpl; auto.
      intros []%Hone. reflexivity.
  - intros ->. exists []. rewrite app_nil_r. by repeat split.
Qed.

(** What a step does to the connection at a position. *)
Lemma step_connection s ev s' c conn :
  step s ev = Some s' →
  connections s !! c = Some conn →
  ∃ w msgs,
    connections s' !! c
    = Some {| conn_sessionId := conn_sessionId conn; conn_ws := w |}
    ∧ sent w = sent (conn_ws conn) ++ msgs
    ∧ Forall (λ m, is_session m = false) msgs
    ∧ (closed (conn_ws conn) = true → closed w = true)
    ∧ (Exists (λ m, is_final m = true) msgs → closed w = true).
Proof.
  intros Hstep Hc.
  assert (Hsame : ∃ w msgs,
            Some conn
            = Some {| conn_sessionId := conn_sessionId conn; conn_ws := w |}
            ∧ sent w = sent (conn_ws conn) ++ msgs
            ∧ Forall (λ m, is_session m = false) msgs
            ∧ (closed (conn_ws conn) = true → closed w = true)
            ∧ (Exists (λ m, is_final m = true) msgs → closed w = true)).
  { exists (conn_ws conn), []. rewrite app_nil_r. destruct conn.
    repeat split; auto. by intros ?%Exists_nil. }
  destruct (step_subject s ev s' Hstep) as [[uuid ->] | (c0 & conn0 & Hev & Hc0)].
  - injection Hstep as <-. simpl.
    rewrite lookup_app_l by (by eapply lookup_lt_Some). by rewrite Hc.
  - destruct (step_socket s ev s' c0 conn0 Hstep Hev Hc0) as (w & -> & Hw).
    destruct (decide (c0 = c)) as [-> |].
    + rewrite list_lookup_insert_eq by (by eapply lookup_lt_Some).
      assert (conn0 = conn) as -> by congruence.
      destruct (answers_shape ev _ w Hw) as (msgs & Hmsgs).
      by exists w, msgs.
    + rewrite list_lookup_insert_ne by done. by rewrite Hc.
Qed.

(** X4.  In every reachable state the first message a connection was sent
    is the [session] message carrying its own identifier, and it was sent
    no other [session] message. *)
Theorem session_message_first s c conn :
  reachable s →
  connections s !! c = Some conn →
  ∃ rest,
    sent (conn_ws conn) = MsgSession (conn_sessionId conn) :: rest
    ∧ Forall (λ m, is_session m = false) rest.
Proof.
  intros [evs Hrun]. revert c conn.
  apply (run_invariant
           (λ s, ∀ c conn, connections s !! c = Some conn →
                 ∃ rest, sent (conn_ws conn)
                         = MsgSession (conn_sessionId conn) :: rest
                         ∧ Forall (λ m, is_session m = false) rest))
    with (evs := evs) (s := initial); [| done | exact Hrun].
  clear. intros s ev s' Hinv Hstep c conn' Hc'.
  destruct (connections s !! c) as [conn |] eqn:Hc.
  - destruct (step_connection s ev s' c conn Hstep Hc)
      as (w & msgs & Hc1 & Hsent & Hmsgs & _).
    rewrite Hc' in Hc1. injection Hc1 as ->. simpl.
    destruct (Hinv c conn Hc) as (rest & Hrest & Hno).
    exists (rest ++ msgs). rewrite Hsent, Hrest. split; [done |].
    by apply Forall_app.
  - destruct (step_subject s ev s' Hstep) as [[uuid ->] | (c0 & conn0 & Hev & Hc0)].
    + injection Hstep as <-. simpl in Hc'.
      apply lookup_ge_None in Hc.
      rewrite lookup_app_r in Hc' by done.
      destruct (c - length (connections s)) as [| n]; [| done].
      injection Hc' as <-. simpl. by exists [].
    + destruct (step_socket s ev s' c0 conn0 Hstep Hev Hc0) as (w & Heq & _).
      rewrite Heq in Hc'. apply lookup_lt_Some in Hc'.
      rewrite length_insert in Hc'. apply lookup_ge_None in Hc. lia.
Qed.

(** X5.  In every reachable state a connection that was sent a [final]
    message has its socket closed. *)
Theorem final_message_closes s c conn :
  reachable s →
  connections s !! c = Some conn →
  Exists (λ m, is_final m = true) (sent (conn_ws conn)) →
  closed (conn_ws conn) = true.
Proof.
  intros [evs Hrun]. revert c conn.
  apply (run_invariant
           (λ s, ∀ c conn, connections s !! c = Some conn →
                 Exists (λ m, is_final m = true) (sent (conn_ws conn)) →
                 closed (conn_ws conn) = true))
    with (evs := evs) (s := initial); [| done | exact Hrun].
  clear. intros s ev s' Hinv Hstep c conn' Hc'.
  destruct (connections s !! c) as [conn |] eqn:Hc.
  - destruct (step_connection s ev s' c conn Hstep Hc)
      as (w & msgs & Hc1 & Hsent & _ & Hclosed & Hfinal).
    rewrite Hc' in Hc1. injection Hc1 as ->. simpl.
    rewrite Hsent. intros [Hold | Hnew]%Exists_app; [| by apply Hfinal].
    apply Hclosed. by apply (Hinv c conn).
  - destruct (step_subject s ev s' Hstep) as [[uuid ->] | (c0 & conn0 & Hev & Hc0)].
    + injection Hstep as <-. simpl in Hc'.
      apply lookup_ge_None in Hc.
      rewrite lookup_app_r in Hc' by done.
      destruct (c - length (connections s)) as [| n]; [| done].
      injection Hc' as <-. simpl.
      intros [Hm | ?%Exists_nil]%Exists_cons; done.
    + destruct (step_socket s ev s' c0 conn0 Hstep Hev Hc0) as (w & Heq & _).
      rewrite Heq in Hc'. apply lookup_lt_Some in Hc'.
      rewrite length_insert in Hc'. apply lookup_ge_None in Hc. lia.
Qed.

End Sockets.

(** ** Messages and settlements out of sequence *)

Section OutOfSequence.
Context `{Platform}.

(** X6.  A message that is not JSON is answered with one error message
    carrying the parser's [SyntaxError]; the store and the parked handlers
    are unchanged and the socket stays as open as it was. *)
Theorem unparseable_message s c conn msg :
  connections s !! c = Some conn →
  JSON_parse msg = None →
  step s (Message c msg)
  = Some {| store := store s;
            connections :=
              <[c := {| conn_sessionId := conn_sessionId conn;
                        conn_ws :=
                          {| sent := sent (conn_ws conn)
                                     ++ [MsgError (SyntaxError msg)];
                             closed := closed (conn_ws conn) |} |}]>
                (connections s);
            pending := pending s |}.
Proof.
  intros Hc Hparse. unfold step. rewrite Hc. simpl.
  unfold try_catch, on_message, lift, JSON_parse_or_throw, mbind, handler_bind.
  rewrite Hparse. simpl. unfold commit. simpl. by rewrite app_nil_r.
Qed.

(** X7.  Once the session is gone from the store, an [audioChunk], a
    [chunkEnd] and an [end] message are each answered with the [TypeError]
    of the first read of the missing session; nothing is written, no
    provider is called and no handler is parked. *)
Theorem message_to_deleted_session s c conn msg ty :
  connections s !! c = Some conn →
  store s !! conn_sessionId conn = None →
  has_type msg ty →
  ty ∈ ["audioChunk"; "chunkEnd"; "end"] →
  step s (Message c msg)
  = Some {| store := store s;
            connections :=
              <[c := {| conn_sessionId := conn_sessionId conn;
                        conn_ws :=
                          {| sent := sent (conn_ws conn)
                                     ++ [MsgError (TypeError Undefined (first_read ty))];
                             closed := closed (conn_ws conn) |} |}]>
                (connections s);
            pending := pending s |}.
Proof.
  intros Hc Hsess (payload & Hparse & Htype) Hty. unfold step. rewrite Hc. simpl.
  unfold try_catch, on_message, type_is, lift, sessions_get,
    JSON_parse_or_throw, mbind, handler_bind, mret, handler_ret.
  rewrite Hparse, Htype. simpl.
  apply elem_of_cons in Hty as [-> | Hty];
    [| apply elem_of_cons in Hty as [-> | Hty];
       [| apply elem_of_cons in Hty as [-> | []%elem_of_nil]]];
    simpl; rewrite Hsess; simpl; unfold commit; simpl; by rewrite app_nil_r.
Qed.

(** X8.  A transcription that settles after its session was deleted is
    dropped: the handler throws on reading the session, the client is sent
    an error message, and the session is not put back in the store. *)
Theorem late_transcription_is_dropped s k c unit conn transcription :
  pending s !! k = Some (flush_of c unit) →
  connections s !! c = Some conn →
  store s !! conn_sessionId conn = None →
  step s (Transcribed k (Fulfilled transcription))
  = Some {| store := store s;
            connections :=
              <[c := {| conn_sessionId := conn_sessionId conn;
                        conn_ws :=
                          {| sent := sent (conn_ws conn)
                                     ++ [MsgError (TypeError Undefined "transcript")];
                             closed := closed (conn_ws conn) |} |}]>
                (connections s);
            pending := delete k (pending s) |}.
Proof.
  intros Hk Hc Hsess. unfold step. rewrite Hk. simpl. rewrite Hc. simpl.
  unfold try_catch, after_transcription, await, lift, sessions_get,
    mbind, handler_bind.
  simpl. rewrite Hsess. reflexivity.
Qed.

(** X9.  A finalisation that fails, because the summarisation is rejected
    or its response has no text to read, deletes nothing and closes
    nothing: the client is sent the error and the session keeps its
    transcript, so that a later [end] asks for the summary of the same
    text again. *)
Theorem failed_finalisation_keeps_session
    s k c request fullText sessionId sess w r e finish :
  pending s !! k
  = Some {| task_conn := c; task_awaiting := AwaitResponse request fullText |} →
  session_at s c sessionId sess w →
  settle r ≫= parse_or_fallback "Invalid JSON from model" = Throw e →
  has_type finish "end" →
  step s (Responded k r)
  = Some {| store := store s;
            connections :=
              <[c := {| conn_sessionId := sessionId;
                        conn_ws := {| sent := sent w ++ [MsgError e];
                                      closed := closed w |} |}]>
                (connections s);
            pending := delete k (pending s) |}
  ∧ run s [Responded k r; Message c finish]
    = Some {| store := store s;
              connections :=
                <[c := {| conn_sessionId := sessionId;
                          conn_ws := {| sent := sent w ++ [MsgError e];
                                        closed := closed w |} |}]>
                  (connections s);
              pending :=
                delete k (pending s)
                ++ [{| task_conn := c;
                       task_awaiting :=
                         AwaitResponse
                           {| model := "gpt-4o-mini";
                              input := prompt "        " (trim (transcript sess));
                              temperature := "0.2" |}
                           (trim (transcript sess)) |}] |}.
Proof.
  intros Hk [Hc Hsess] Hfail Hfinish.
  assert (Hstep :
            step s (Responded k r)
            = Some {| store := store s;
                      connections :=
                        <[c := {| conn_sessionId := sessionId;
                                  conn_ws := {| sent := sent w ++ [MsgError e];
                                                closed := closed w |} |}]>
                          (connections s);
                      pending := delete k (pending s) |}).
  { unfold step. rewrite Hk. simpl. rewrite Hc. simpl.
    unfold try_catch, after_response, await, lift, mbind, handler_bind.
    unfold mbind, result_bind in Hfail.
    destruct (settle r) as [completion | e0]; simpl.
    - rewrite Hfail. reflexivity.
    - injection Hfail as ->. reflexivity. }
  split; [exact Hstep |].
  rewrite (run_cons _ _ _ _ Hstep), run_one.
  assert (Hlt : c < length (connections s)) by (by eapply lookup_lt_Some).
  erewrite step_end;
    [| by apply list_lookup_insert_eq | exact Hsess | exact Hfinish].
  reflexivity.
Qed.

(** X10.  A response without an output item, without [content] or without
    a content part is not given the fallback summary: the read throws in
    the [try] block and again in the [catch] block, so parsing throws that
    [TypeError], and the one-shot endpoint answers 500 with it. *)
Theorem response_without_text completion e :
  output_text completion = Throw e →
  (∀ label, parse_or_fallback label completion = Throw e)
  ∧ (∀ transcribe respond buffer transcription,
       transcribe {| file := buffer; file_name := "audio.wav";
                     file_type := "audio/wav";
                     transcription_model := "whisper-1" |}
       = Fulfilled transcription →
       respond {| model := "gpt-4o-mini";
                  input := prompt "    " (text transcription);
                  temperature := "0.2" |}
       = Fulfilled completion →
       one_shot transcribe respond (Some buffer)
       = {| status := 500; body := BodyError (MessageOf e) |}).
Proof.
  intros Htext.
  assert (Hparse : ∀ label, parse_or_fallback label completion = Throw e)
    by (intros label; unfold parse_or_fallback; by rewrite Htext).
  split; [exact Hparse |].
  intros transcribe respond buffer transcription Htr Hre.
  unfold one_shot, one_shot_try. rewrite Htr. simpl. rewrite Hre. simpl.
  by rewrite Hparse.
Qed.

End OutOfSequence.

(** ** The buffer around a flush *)

Section AroundFlush.
Context `{Platform}.

Lemma join_cons (x : jsval) (xs : list jsval) :
  join (x :: xs)
  = match join_element x, join xs with
    | Return t, Return u => Return (t +:+ u)
    | Return _, Throw e => Throw e
    | Throw e, _ => Throw e
    end.
Proof.
  unfold join. cbn [map sequence].
  destruct (join_element x) as [t | e]; [| reflexivity].
  destruct (sequence (map join_element xs)) as [strings | e]; [| reflexivity].
  by rewrite concat_cons.
Qed.

(** Elements that are [undefined] or [null] do not change a join. *)
Lemma join_defined (xs : list jsval) : join (List.filter defined xs) = join xs.
Proof.
  induction xs as [|x xs IH]; [reflexivity |].
  cbn [List.filter]. rewrite (join_cons x xs).
  destruct x as [[| b | repr | t | items | props] |]; cbn [defined];
    rewrite ?join_cons, IH; try reflexivity;
    cbn [join_element]; by destruct (join xs).
Qed.

Lemma transcription_failed_at s k c unit sessionId sess w message :
  pending s !! k = Some (flush_of c unit) →
  session_at s c sessionId sess w →
  ∃ s',
    step s (Transcribed k (Rejected message)) = Some s'
    ∧ pending s' = delete k (pending s)
    ∧ session_at s' c sessionId sess
        {| sent := sent w ++ [MsgError (ProviderError message)];
           closed := closed w |}.
Proof.
  intros Hk [Hc Hsess].
  rewrite (step_transcription_failed s k c _ _ message Hk Hc).
  eexists. split; [reflexivity |]. split; [reflexivity |].
  split; [| exact Hsess].
  apply list_lookup_insert_eq. by eapply lookup_lt_Some.
Qed.

(** X11.  Chunks that arrive while a flush is in flight are kept: when the
    transcription settles, its text is appended to the transcript and the
    buffer holds exactly the chunks received since the [chunkEnd]. *)
Theorem chunks_during_flush_are_kept
    s c sessionId sess w flush unit msgs datas transcription :
  session_at s c sessionId sess w →
  has_type flush "chunkEnd" →
  join (chunks sess) = Return unit →
  Forall2 is_audioChunk msgs datas →
  ∃ s',
    run s (Message c flush
           :: map (Message c) msgs
           ++ [Transcribed (length (pending s)) (Fulfilled transcription)])
    = Some s'
    ∧ pending s' = pending s
    ∧ session_at s' c sessionId
        {| chunks := datas;
           transcript := transcript sess +:+ " " +:+ text transcription |}
        {| sent := sent w ++ [MsgPartialTranscript (text transcription)];
           closed := closed w |}.
Proof.
  intros Hat Hflush Hjoin Hall.
  destruct (flush_at s c sessionId sess w flush unit Hat Hflush Hjoin)
    as (s1 & Hstep1 & Hp1 & Hat1).
  destruct (audioChunks_at s1 c sessionId _ w msgs datas
              [Transcribed (length (pending s)) (Fulfilled transcription)]
              Hat1 Hall) as (s2 & Hrun & Hp2 & Hat2).
  assert (Hk : pending s2 !! length (pending s) = Some (flush_of c unit))
    by (rewrite Hp2, Hp1; by apply list_lookup_middle).
  destruct (transcribed_at _ _ _ _ _ _ _ transcription Hk Hat2)
    as (s3 & Hstep3 & Hp3 & Hat3).
  exists s3. rewrite (run_cons _ _ _ _ Hstep1), Hrun, run_one.
  split; [exact Hstep3 |].
  split; [by rewrite Hp3, Hp2, Hp1, delete_middle, app_nil_r | exact Hat3].
Qed.

(** X12.  The audio of a flush whose transcription fails is gone: the
    buffer was emptied when the flush was taken and is not restored, so
    the next [chunkEnd] submits the unit of the empty buffer and the
    transcript is as it was before the failed flush. *)
Theorem failed_flush_loses_its_audio
    s c sessionId sess w msgs datas flush1 unit message flush2 :
  session_at s c sessionId sess w →
  Forall2 is_audioChunk msgs datas →
  has_type flush1 "chunkEnd" →
  join (chunks sess ++ datas) = Return unit →
  has_type flush2 "chunkEnd" →
  ∃ s',
    run s (map (Message c) msgs
           ++ [Message c flush1;
               Transcribed (length (pending s)) (Rejected message);
               Message c flush2])
    = Some s'
    ∧ pending s' = pending s ++ [flush_of c ""]
    ∧ store s' !! sessionId
      = Some {| chunks := []; transcript := transcript sess |}.
Proof.
  intros Hat Hall Hflush1 Hjoin Hflush2.
  destruct (audioChunks_at s c sessionId sess w msgs datas
              [Message c flush1;
               Transcribed (length (pending s)) (Rejected message);
               Message c flush2] Hat Hall) as (s1 & Hrun & Hp1 & Hat1).
  destruct (flush_at s1 c sessionId _ w flush1 unit Hat1 Hflush1 Hjoin)
    as (s2 & Hstep2 & Hp2 & Hat2).
  assert (Hk : pending s2 !! length (pending s) = Some (flush_of c unit))
    by (rewrite Hp2, Hp1; by apply list_lookup_middle).
  destruct (transcription_failed_at _ _ _ _ _ _ _ message Hk Hat2)
    as (s3 & Hstep3 & Hp3 & Hat3).
  destruct (flush_at s3 c sessionId _ _ flush2 "" Hat3 Hflush2 eq_refl)
    as (s4 & Hstep4 & Hp4 & Hat4).
  exists s4.
  rewrite Hrun, (run_cons _ _ _ _ Hstep2), (run_cons _ _ _ _ Hstep3), run_one.
  split; [exact Hstep4 |].
  split; [by rewrite Hp4, Hp3, Hp2, Hp1, delete_middle, app_nil_r | apply Hat4].
Qed.

(** X13.  An [audioChunk] message whose [data] is missing or [null] is
    buffered like any other but adds nothing to the unit that is flushed:
    the unit is decoded from the join of the other payloads only. *)
Theorem flush_skips_missing_data s c sessionId sess w msgs datas flush unit :
  session_at s c sessionId sess w →
  chunks sess = [] →
  Forall2 is_audioChunk msgs datas →
  has_type flush "chunkEnd" →
  join (List.filter defined datas) = Return unit →
  ∃ s',
    run s (map (Message c) msgs ++ [Message c flush]) = Some s'
    ∧ pending s' = pending s ++ [flush_of c unit]
    ∧ store s' !! sessionId
      = Some {| chunks := []; transcript := transcript sess |}.
Proof.
  intros Hat Hempty Hall Hflush Hjoin.
  destruct (audioChunks_at s c sessionId sess w msgs datas [Message c flush]
              Hat Hall) as (s1 & Hrun & Hp1 & Hat1).
  rewrite join_defined in Hjoin.
  destruct (flush_at s1 c sessionId _ w flush unit Hat1 Hflush)
    as (s2 & Hstep2 & Hp2 & Hat2); [cbn [chunks]; by rewrite Hempty |].
  exists s2. rewrite Hrun, run_one. split; [exact Hstep2 |].
  split; [by rewrite Hp2, Hp1 | apply Hat2].
Qed.

Lemma join_throws_app (xs ys : list jsval) e :
  join xs = Throw e → join (xs ++ ys) = Throw e.
Proof.
  induction xs as [|x xs IH]; [done |].
  change ((x :: xs) ++ ys) with (x :: (xs ++ ys)). rewrite !join_cons.
  destruct (join_element x) as [t | e0]; [| done].
  destruct (join xs) as [u | e1]; [done |].
  intros [= ->]. by rewrite (IH eq_refl).
Qed.

(** X17.  A session whose buffer cannot be joined, because it holds an
    object that cannot be converted to a string, never flushes again: the
    buffer is only reset after a join that succeeded, so after any further
    chunks a [chunkEnd] throws the same error, the client is sent it,
    nothing is submitted and the buffer keeps everything. *)
Theorem unjoinable_buffer_never_flushes
    s c sessionId sess w e msgs datas flush :
  session_at s c sessionId sess w →
  join (chunks sess) = Throw e →
  Forall2 is_audioChunk msgs datas →
  has_type flush "chunkEnd" →
  ∃ s',
    run s (map (Message c) msgs ++ [Message c flush]) = Some s'
    ∧ pending s' = pending s
    ∧ session_at s' c sessionId
        {| chunks := chunks sess ++ datas; transcript := transcript sess |}
        {| sent := sent w ++ [MsgError e]; closed := closed w |}.
Proof.
  intros Hat Hjoin Hall Hflush.
  destruct (audioChunks_at s c sessionId sess w msgs datas [Message c flush]
              Hat Hall) as (s1 & Hrun & Hp1 & [Hc1 Hsess1]).
  rewrite Hrun, run_one.
  erewrite step_chunkEnd_throws;
    [| exact Hc1 | exact Hsess1 | exact Hflush
     | cbn [chunks]; by apply join_throws_app].
  eexists. split; [reflexivity |]. split; [exact Hp1 |].
  split; [| exact Hsess1].
  apply list_lookup_insert_eq. by eapply lookup_lt_Some.
Qed.

End AroundFlush.

(** ** The transcript only grows *)

Section AppendOnly.
Context `{Platform}.

(** A message handler never writes the transcript. *)
Lemma on_message_transcript sessionId msg h :
  sessions (on_message sessionId msg h).2 = sessions h
  ∨ ∃ sess buffer,
      sessions h !! sessionId = Some sess
      ∧ sessions (on_message sessionId msg h).2
        = <[sessionId := {| chunks := buffer; transcript := transcript sess |}]>
            (sessions h).
Proof.
  unfold on_message, type_is, lift, sessions_get, sessions_put,
    JSON_parse_or_throw, mbind, handler_bind, mret, handler_ret.
  destruct (JSON_parse msg) as [payload |]; [| by left].
  destruct (prop payload "type") as [type | e]; [| by left]. simpl.
  destruct (prop payload "data") as [data | e];
    destruct (strict_eq type "audioChunk"), (strict_eq type "chunkEnd"),
      (strict_eq type "end");
    simpl; destruct (sessions h !! sessionId) as [sess |] eqn:Hsess; simpl;
    rewrite ?lookup_insert_eq; simpl; rewrite ?Hsess; simpl;
    try (destruct (join _); simpl);
    rewrite ?insert_insert_eq; eauto.
Qed.

Lemma after_transcription_transcript sessionId r h :
  sessions (after_transcription sessionId r h).2 = sessions h
  ∨ ∃ sess t,
      sessions h !! sessionId = Some sess
      ∧ sessions (after_transcription sessionId r h).2
        = <[sessionId := {| chunks := chunks sess;
                            transcript := transcript sess +:+ " " +:+ t |}]>
            (sessions h).
Proof.
  unfold after_transcription, await, lift, sessions_get, sessions_put, ws_send,
    mbind, handler_bind.
  destruct r as [transcription | message]; simpl; [| by left].
  destruct (sessions h !! sessionId) as [sess |] eqn:Hsess; simpl; eauto.
Qed.

(** One step extends the transcript of a session that it neither creates
    nor deletes. *)
Lemma step_transcript s ev s' sessionId sess sess' :
  step s ev = Some s' →
  ev ≠ Connect sessionId →
  store s !! sessionId = Some sess →
  store s' !! sessionId = Some sess' →
  ∃ u, transcript sess' = transcript sess +:+ u.
Proof.
  assert (Hsame : ∀ m : gmap string Session,
            m = store s → m !! sessionId = Some sess' →
            store s !! sessionId = Some sess →
            ∃ u, transcript sess' = transcript sess +:+ u).
  { intros m -> H1 H2. exists "". rewrite append_nil_r. congruence. }
  assert (Hwrite : ∀ (m : gmap string Session) sid sess0 buffer u,
            store s !! sid = Some sess0 →
            m = <[sid := {| chunks := buffer;
                            transcript := transcript sess0 +:+ u |}]> (store s) →
            m !! sessionId = Some sess' →
            store s !! sessionId = Some sess →
            ∃ u, transcript sess' = transcript sess +:+ u).
  { intros m sid sess0 buffer u Hsid -> H1 H2.
    destruct (decide (sid = sessionId)) as [-> |].
    - rewrite lookup_insert_eq in H1. injection H1 as <-. exists u. simpl.
      congruence.
    - rewrite lookup_insert_ne in H1 by done. exists "".
      rewrite append_nil_r. congruence. }
  destruct ev as [uuid | c msg | k r | k r | c]; simpl.
  - intros [= <-] Hne Hs Hs'. simpl in Hs'.
    rewrite lookup_insert_ne in Hs' by congruence.
    by apply (Hsame (store s)).
  - destruct (connections s !! c) as [conn |] eqn:Hc; [| done]. simpl.
    destruct (try_catch _ _) as [res h] eqn:Htry. intros [= <-] _ Hs Hs'.
    simpl in Hs'.
    assert (Hh : sessions h
                 = sessions (try_catch (on_message (conn_sessionId conn) msg)
                               (heap_of s conn)).2) by (by rewrite Htry).
    rewrite try_catch_sessions in Hh.
    destruct (on_message_transcript (conn_sessionId conn) msg (heap_of s conn))
      as [Heq | (sess0 & buffer & Hsid & Heq)]; rewrite Heq in Hh.
    + by apply (Hsame (sessions h)).
    + apply (Hwrite (sessions h) (conn_sessionId conn) sess0 buffer "");
        [exact Hsid | by rewrite append_nil_r | exact Hs' | exact Hs].
  - destruct (pending s !! k) as [task |] eqn:Hk; [| done]. simpl.
    destruct (connections s !! task_conn task) as [conn |] eqn:Hc; [| done].
    simpl. destruct (task_awaiting task); [| done].
    destruct (try_catch _ _) as [res h] eqn:Htry. intros [= <-] _ Hs Hs'.
    simpl in Hs'.
    assert (Hh : sessions h
                 = sessions (try_catch
                               (after_transcription (conn_sessionId conn) r)
                               (heap_of s conn)).2) by (by rewrite Htry).
    rewrite try_catch_sessions in Hh.
    destruct (after_transcription_transcript (conn_sessionId conn) r
                (heap_of s conn)) as [Heq | (sess0 & t & Hsid & Heq)];
      rewrite Heq in Hh.
    + by apply (Hsame (sessions h)).
    + by apply (Hwrite (sessions h) (conn_sessionId conn) sess0 (chunks sess0)
                  (" " +:+ t)).
  - destruct (pending s !! k) as [task |] eqn:Hk; [| done]. simpl.
    destruct (connections s !! task_conn task) as [conn |] eqn:Hc; [| done].
    simpl. destruct (task_awaiting task) as [| request fullText]; [done |].
    destruct (try_catch _ _) as [res h] eqn:Htry. intros [= <-] _ Hs Hs'.
    simpl in Hs'.
    assert (Hh : sessions h
                 = sessions (try_catch
                               (after_response (conn_sessionId conn) fullText r)
                               (heap_of s conn)).2) by (by rewrite Htry).
    rewrite try_catch_sessions in Hh.
    destruct (after_response_sessions (conn_sessionId conn) fullText r
                (heap_of s conn)) as [Heq | [_ Heq]]; rewrite Heq in Hh.
    + by apply (Hsame (sessions h)).
    + rewrite Hh in Hs'. exists "". rewrite append_nil_r.
      destruct (decide (conn_sessionId conn = sessionId)) as [<- |].
      * by rewrite lookup_delete_eq in Hs'.
      * rewrite lookup_delete_ne in Hs' by done. simpl in Hs'. congruence.
  - destruct (connections s !! c) as [conn |]; [| done]. simpl.
    intros [= <-] _ Hs Hs'. by apply (Hsame (store s)).
Qed.

(** X14.  The transcript of a session is append-only: through every run of
    events in which its identifier is not handed to a new connection, the
    transcript of a session that is still in the store begins with the
    transcript it had. *)
Theorem transcript_only_grows evs : ∀ s s' sessionId sess sess',
  run s evs = Some s' →
  sessionId ∉ created evs →
  store s !! sessionId = Some sess →
  store s' !! sessionId = Some sess' →
  ∃ u, transcript sess' = transcript sess +:+ u.
Proof.
  induction evs as [|ev evs IH]; intros s s' sessionId sess sess' Hrun Hfresh Hs Hs'.
  - injection Hrun as <-. exists "". rewrite append_nil_r. congruence.
  - simpl in Hrun. destruct (step s ev) as [s1 |] eqn:Hstep; [| done].
    simpl in Hrun.
    assert (Hne : ev ≠ Connect sessionId).
    { intros ->. apply Hfresh. simpl. apply list_elem_of_here. }
    assert (Hfresh' : sessionId ∉ created evs).
    { intros Hin. apply Hfresh. destruct ev; simpl; try done.
      by apply list_elem_of_further. }
    destruct (store s1 !! sessionId) as [sess1 |] eqn:Hs1.
    + destruct (step_transcript s ev s1 sessionId sess sess1 Hstep Hne Hs Hs1)
        as [u Hu].
      destruct (IH s1 s' sessionId sess1 sess' Hrun Hfresh' Hs1 Hs') as [v Hv].
      exists (u +:+ v). by rewrite Hv, Hu, append_assoc.
    + rewrite (run_absent evs s1 s' sessionId Hrun Hs1 Hfresh') in Hs'. done.
Qed.

End AppendOnly.

(** ** When a provider is called *)

Section ProviderCalls.
Context `{Platform}.

Lemma strict_eq_true v t : strict_eq v t = true → v = Some (JStr t).
Proof.
  destruct v as [[| b | repr | t' | items | props] |]; simpl; try done.
  by intros ->%String.eqb_eq.
Qed.

(** X15.  A message makes the server call a provider, and park its
    handler, exactly when it is a [chunkEnd] for a session that is in the
    store and whose buffer can be joined, which calls the transcription
    provider with the joined unit, or an [end] for a session that is in the
    store, which calls the language model with the trimmed transcript.  No
    other message parks a handler. *)
Theorem provider_called_iff s c conn msg s' :
  connections s !! c = Some conn →
  step s (Message c msg) = Some s' →
  (∀ sess unit,
     store s !! conn_sessionId conn = Some sess →
     has_type msg "chunkEnd" →
     join (chunks sess) = Return unit →
     pending s' = pending s ++ [flush_of c unit])
  ∧ (∀ sess,
       store s !! conn_sessionId conn = Some sess →
       has_type msg "end" →
       ∃ request,
         pending s'
         = pending s
           ++ [{| task_conn := c;
                  task_awaiting :=
                    AwaitResponse request (trim (transcript sess)) |}])
  ∧ (¬ (∃ sess,
          store s !! conn_sessionId conn = Some sess
          ∧ ((has_type msg "chunkEnd" ∧ ∃ unit, join (chunks sess) = Return unit)
             ∨ has_type msg "end")) →
     pending s' = pending s).
Proof.
  intros Hc Hstep. split; [| split].
  - intros sess unit Hsess Hty Hjoin.
    rewrite (step_chunkEnd s c conn sess msg unit Hc Hsess Hty Hjoin) in Hstep.
    by injection Hstep as <-.
  - intros sess Hsess Hty.
    rewrite (step_end s c conn sess msg Hc Hsess Hty) in Hstep.
    injection Hstep as <-. by eexists.
  - intros Hnot. revert Hstep. unfold step. rewrite Hc. simpl.
    unfold try_catch, on_message, type_is, lift, sessions_get, sessions_put,
      JSON_parse_or_throw, mbind, handler_bind, mret, handler_ret.
    destruct (JSON_parse msg) as [payload |] eqn:Hparse; simpl;
      [| intros [= <-]; simpl; apply app_nil_r].
    destruct (prop payload "type") as [type | e] eqn:Htype; simpl;
      [| intros [= <-]; simpl; apply app_nil_r].
    assert (Hhas : ∀ ty, strict_eq type ty = true → has_type msg ty).
    { intros ty ->%strict_eq_true. by exists payload. }
    destruct (strict_eq type "audioChunk") eqn:Haudio.
    + apply strict_eq_true in Haudio. subst type. simpl.
      destruct (store s !! conn_sessionId conn) as [sess |]; simpl;
        [destruct (prop payload "data"); simpl |];
        intros [= <-]; simpl; apply app_nil_r.
    + destruct (strict_eq type "chunkEnd") eqn:Hflush; simpl.
      * destruct (store s !! conn_sessionId conn) as [sess |] eqn:Hsess; simpl;
          [| intros [= <-]; simpl; apply app_nil_r].
        destruct (join (chunks sess)) as [unit | e] eqn:Hjoin; simpl;
          [| intros [= <-]; simpl; apply app_nil_r].
        exfalso. apply Hnot. exists sess. split; [done |]. left. eauto.
      * destruct (strict_eq type "end") eqn:Hend; simpl;
          [| intros [= <-]; simpl; apply app_nil_r].
        destruct (store s !! conn_sessionId conn) as [sess |] eqn:Hsess; simpl;
          [| intros [= <-]; simpl; apply app_nil_r].
        exfalso. apply Hnot. exists sess. split; [done |]. right. eauto.
Qed.

End ProviderCalls.

(** ** The answers of the one-shot endpoint *)

Section BatchAnswers.
Context `{Platform}.

(** X16.  The one-shot endpoint answers 200, 400 or 500 and nothing else,
    and it never answers 200 unless a file was attached and both providers
    fulfilled their calls: the transcript in the body is then the
    transcription's text as the provider gave it, not trimmed. *)
Theorem one_shot_success_needs_both transcribe respond req_file :
  status (one_shot transcribe respond req_file) ∈ [200; 400; 500]
  ∧ (status (one_shot transcribe respond req_file) = 200 →
     ∃ buffer transcription completion summary,
       req_file = Some buffer
       ∧ transcribe {| file := buffer; file_name := "audio.wav";
                       file_type := "audio/wav";
                       transcription_model := "whisper-1" |}
         = Fulfilled transcription
       ∧ respond {| model := "gpt-4o-mini";
                    input := prompt "    " (text transcription);
                    temperature := "0.2" |}
         = Fulfilled completion
       ∧ parse_or_fallback "Invalid JSON" completion = Return summary
       ∧ one_shot transcribe respond req_file
         = {| status := 200;
              body := BodyResult (text transcription) summary |}).
Proof.
  unfold one_shot, one_shot_try.
  destruct req_file as [buffer |]; simpl.
  - destruct (transcribe _) as [transcription | message] eqn:Htr; simpl.
    + destruct (respond _) as [completion | message] eqn:Hre; simpl.
      * destruct (parse_or_fallback _ completion) as [summary | e] eqn:Hsum;
          simpl.
        -- split; [set_solver |]. intros _.
           by exists buffer, transcription, completion, summary.
        -- split; [set_solver | done].
      * split; [set_solver | done].
    + split; [set_solver | done].
  - split; [set_solver | done].
Qed.

End BatchAnswers.

(** ** The further properties at concrete inputs *)

Example further_examples_reachable :
  @run example_platform initial
    [Connect "s1"; Message 0 end_msg;
     Responded 0 (Fulfilled (response_of (render example_summary)))]
  = Some example_finalized
  ∧ @run example_platform initial
      [Connect "s1"; Message 0 (audioChunk_msg "QQ=="); Message 0 chunkEnd_msg;
       Message 0 end_msg;
       Responded 1 (Fulfilled (response_of (render example_summary)))]
    = Some example_late
  ∧ @run example_platform initial
      [Connect "s1"; Message 0 (audioChunk_msg "QQ=="); Connect "s2"]
    = Some example_two_clients
  ∧ @run sparse_platform initial
      [Connect "s1"; Message 0 (render chunk_with_object)]
    = Some example_stuck.
Proof. repeat split; vm_compute; reflexivity. Qed.

Lemma one_reply_per_event_witness :
  ∃ s',
    @step example_platform example_flushing
      (Transcribed 0 (Fulfilled {| text := "hello" |}))
    = Some s'
    ∧ (∃ conn',
         connections s' !! 0 = Some conn'
         ∧ conn_sessionId conn' = "s1"
         ∧ @answers (Transcribed 0 (Fulfilled {| text := "hello" |}))
             example_socket (conn_ws conn'))
    ∧ (∀ c', c' ≠ 0 →
             connections s' !! c' = connections example_flushing !! c')
    ∧ length (connections s') = 1.
Proof.
  eexists. split; [reflexivity |].
  apply (@one_reply_per_event example_platform example_flushing
           (Transcribed 0 (Fulfilled {| text := "hello" |})) _ 0
           example_connection); reflexivity.
Defined.

Lemma other_sessions_untouched_witness :
  ∃ s',
    @step example_platform example_two_clients (Message 1 (audioChunk_msg "Qg=="))
    = Some s'
    ∧ store s' !! "s1" = store example_two_clients !! "s1".
Proof.
  eexists. split; [reflexivity |].
  apply (@other_sessions_untouched example_platform example_two_clients
           (Message 1 (audioChunk_msg "Qg==")) _ "s2");
    [reflexivity | reflexivity | discriminate].
Defined.

Lemma session_message_first_witness :
  ∃ rest,
    sent (conn_ws example_closed_connection) = MsgSession "s1" :: rest
    ∧ Forall (λ m, is_session m = false) rest.
Proof.
  apply (@session_message_first example_platform example_finalized 0
           example_closed_connection).
  - exists [Connect "s1"; Message 0 end_msg;
            Responded 0 (Fulfilled (response_of (render example_summary)))].
    vm_compute. reflexivity.
  - reflexivity.
Defined.

Lemma final_message_closes_witness :
  closed (conn_ws example_closed_connection) = true.
Proof.
  apply (@final_message_closes example_platform example_finalized 0
           example_closed_connection).
  - exists [Connect "s1"; Message 0 end_msg;
            Responded 0 (Fulfilled (response_of (render example_summary)))].
    vm_compute. reflexivity.
  - reflexivity.
  - apply Exists_cons_tl, Exists_cons_hd. reflexivity.
Defined.

Lemma unparseable_message_witness :
  @step example_platform example_connected (Message 0 "not json")
  = Some {| store := store example_connected;
            connections :=
              [{| conn_sessionId := "s1";
                  conn_ws :=
                    {| sent := [MsgSession "s1";
                                MsgError (SyntaxError "not json")];
                       closed := false |} |}];
            pending := [] |}.
Proof.
  apply (@unparseable_message example_platform example_connected 0
           example_connection "not json"); reflexivity.
Defined.

Lemma message_to_deleted_session_witness :
  @step example_platform example_finalized (Message 0 (audioChunk_msg "QQ=="))
  = Some {| store := ∅;
            connections :=
              [{| conn_sessionId := "s1";
                  conn_ws :=
                    {| sent := [MsgSession "s1"; MsgFinal "" example_summary;
                                MsgError (TypeError Undefined "chunks")];
                       closed := true |} |}];
            pending := [] |}.
Proof.
  apply (@message_to_deleted_session example_platform example_finalized 0
           example_closed_connection (audioChunk_msg "QQ==") "audioChunk").
  - reflexivity.
  - reflexivity.
  - eexists. split; reflexivity.
  - apply list_elem_of_here.
Defined.

Lemma late_transcription_is_dropped_witness :
  @step example_platform example_late
    (Transcribed 0 (Fulfilled {| text := "hello" |}))
  = Some {| store := ∅;
            connections :=
              [{| conn_sessionId := "s1";
                  conn_ws :=
                    {| sent := [MsgSession "s1"; MsgFinal "" example_summary;
                                MsgError (TypeError Undefined "transcript")];
                       closed := true |} |}];
            pending := [] |}.
Proof.
  apply (@late_transcription_is_dropped example_platform example_late 0 0
           "QQ==" example_closed_connection {| text := "hello" |});
    reflexivity.
Defined.

Lemma failed_finalisation_keeps_session_witness :
  @run example_platform example_finalizing
    [Responded 0 (Rejected "overloaded"); Message 0 end_msg]
  = Some {| store := store example_finalizing;
            connections :=
              [{| conn_sessionId := "s1";
                  conn_ws :=
                    {| sent := [MsgSession "s1";
                                MsgError (ProviderError "overloaded")];
                       closed := false |} |}];
            pending :=
              [{| task_conn := 0;
                  task_awaiting := AwaitResponse example_final_request "" |}] |}.
Proof.
  apply (@failed_finalisation_keeps_session example_platform example_finalizing
           0 0 example_final_request "" "s1" example_session example_socket
           (Rejected "overloaded") (ProviderError "overloaded") end_msg).
  - reflexivity.
  - split; reflexivity.
  - reflexivity.
  - apply (example_has_type end_payload); simpl; tauto.
Defined.

Lemma response_without_text_witness :
  @parse_or_fallback example_platform "Invalid JSON" {| output := [] |}
  = Throw (TypeError Undefined "content")
  ∧ @one_shot example_platform
      (λ _, Fulfilled {| text := "hi" |})
      (λ _, Fulfilled {| output := [] |})
      (Some [Byte.x41])
    = {| status := 500;
         body := BodyError (MessageOf (TypeError Undefined "content")) |}.
Proof.
  destruct (@response_without_text example_platform {| output := [] |}
              (TypeError Undefined "content") eq_refl) as [Hparse Hbatch].
  split.
  - exact (Hparse "Invalid JSON").
  - exact (Hbatch (λ _, Fulfilled {| text := "hi" |})
             (λ _, Fulfilled {| output := [] |})
             [Byte.x41] {| text := "hi" |} eq_refl eq_refl).
Defined.

Lemma chunks_during_flush_are_kept_witness :
  ∃ s',
    @run example_platform example_buffered
      (Message 0 chunkEnd_msg
       :: map (Message 0) [audioChunk_msg "Qg=="]
       ++ [Transcribed 0 (Fulfilled {| text := "hello" |})])
    = Some s'
    ∧ pending s' = []
    ∧ @session_at s' 0 "s1"
        {| chunks := [Some (JStr "Qg==")]; transcript := " hello" |}
        {| sent := [MsgSession "s1"; MsgPartialTranscript "hello"];
           closed := false |}.
Proof.
  apply (@chunks_during_flush_are_kept example_platform example_buffered 0
           "s1" example_buffering example_socket chunkEnd_msg "QQ=="
           [audioChunk_msg "Qg=="] [Some (JStr "Qg==")] {| text := "hello" |}).
  - split; reflexivity.
  - apply (example_has_type chunkEnd_payload); simpl; tauto.
  - reflexivity.
  - repeat constructor. apply example_is_audioChunk; simpl; tauto.
Defined.

Lemma failed_flush_loses_its_audio_witness :
  ∃ s',
    @run example_platform example_connected
      (map (Message 0) [audioChunk_msg "QQ=="]
       ++ [Message 0 chunkEnd_msg; Transcribed 0 (Rejected "boom");
           Message 0 chunkEnd_msg])
    = Some s'
    ∧ pending s' = [] ++ [@flush_of example_platform 0 ""]
    ∧ store s' !! "s1" = Some {| chunks := []; transcript := "" |}.
Proof.
  apply (@failed_flush_loses_its_audio example_platform example_connected 0
           "s1" example_session example_socket [audioChunk_msg "QQ=="]
           [Some (JStr "QQ==")] chunkEnd_msg "QQ==" "boom" chunkEnd_msg).
  - split; reflexivity.
  - repeat constructor. apply example_is_audioChunk; simpl; tauto.
  - apply (example_has_type chunkEnd_payload); simpl; tauto.
  - reflexivity.
  - apply (example_has_type chunkEnd_payload); simpl; tauto.
Defined.

Lemma flush_skips_missing_data_witness :
  ∃ s',
    @run sparse_platform example_connected
      (map (Message 0)
         [render chunk_without_data; audioChunk_msg "QQ==";
          render chunk_with_null]
       ++ [Message 0 chunkEnd_msg])
    = Some s'
    ∧ pending s' = [] ++ [@flush_of sparse_platform 0 "QQ=="]
    ∧ store s' !! "s1" = Some {| chunks := []; transcript := "" |}.
Proof.
  apply (@flush_skips_missing_data sparse_platform example_connected 0 "s1"
           example_session example_socket
           [render chunk_without_data; audioChunk_msg "QQ==";
            render chunk_with_null]
           [None; Some (JStr "QQ=="); Some JNull] chunkEnd_msg "QQ==").
  - split; reflexivity.
  - reflexivity.
  - repeat constructor; eexists; (split; [| split]); reflexivity.
  - eexists. split; reflexivity.
  - reflexivity.
Defined.

Lemma transcript_only_grows_witness :
  ∃ u, " hello" = "" +:+ u.
Proof.
  apply (@transcript_only_grows example_platform
           [Message 0 (audioChunk_msg "QQ=="); Message 0 chunkEnd_msg;
            Transcribed 0 (Fulfilled {| text := "hello" |})]
           example_connected
           {| store := {["s1" := {| chunks := []; transcript := " hello" |}]};
              connections :=
                [{| conn_sessionId := "s1";
                    conn_ws :=
                      {| sent := [MsgSession "s1"; MsgPartialTranscript "hello"];
                         closed := false |} |}];
              pending := [] |}
           "s1" example_session {| chunks := []; transcript := " hello" |}).
  - vm_compute. reflexivity.
  - simpl. apply not_elem_of_nil.
  - reflexivity.
  - reflexivity.
Defined.

Lemma provider_called_iff_witness :
  ∃ s',
    @step example_platform example_buffered (Message 0 chunkEnd_msg) = Some s'
    ∧ pending s' = [] ++ [@flush_of example_platform 0 "QQ=="].
Proof.
  eexists. split; [reflexivity |].
  apply (@provider_called_iff example_platform example_buffered 0
           example_connection chunkEnd_msg _ eq_refl eq_refl)
    with (sess := example_buffering).
  - reflexivity.
  - apply (example_has_type chunkEnd_payload); simpl; tauto.
  - reflexivity.
Defined.

Lemma one_shot_success_needs_both_witness :
  ∃ buffer transcription completion summary,
    Some [Byte.x41] = Some buffer
    ∧ Fulfilled {| text := "hi" |} = Fulfilled transcription
    ∧ Fulfilled (response_of (render example_summary)) = Fulfilled completion
    ∧ @parse_or_fallback example_platform "Invalid JSON" completion
      = Return summary
    ∧ @one_shot example_platform
        (λ _, Fulfilled {| text := "hi" |})
        (λ _, Fulfilled (response_of (render example_summary)))
        (Some [Byte.x41])
      = {| status := 200; body := BodyResult (text transcription) summary |}.
Proof.
  apply (@one_shot_success_needs_both example_platform
           (λ _, Fulfilled {| text := "hi" |})
           (λ _, Fulfilled (response_of (render example_summary)))
           (Some [Byte.x41])).
  reflexivity.
Defined.

Lemma unjoinable_buffer_never_flushes_witness :
  ∃ s',
    @run sparse_platform example_stuck
      (map (Message 0) [audioChunk_msg "QQ=="] ++ [Message 0 chunkEnd_msg])
    = Some s'
    ∧ pending s' = []
    ∧ @session_at s' 0 "s1"
        {| chunks := [Some unconvertible] ++ [Some (JStr "QQ==")];
           transcript := "" |}
        {| sent := [MsgSession "s1"] ++ [MsgError ToPrimitiveError];
           closed := false |}.
Proof.
  apply (@unjoinable_buffer_never_flushes sparse_platform example_stuck 0 "s1"
           example_stuck_session example_socket ToPrimitiveError
           [audioChunk_msg "QQ=="] [Some (JStr "QQ==")] chunkEnd_msg).
  - split; reflexivity.
  - reflexivity.
  - repeat constructor. eexists. (split; [| split]); reflexivity.
  - eexists. split; reflexivity.
Defined.
